(** * Bot Hosting Admin Panel: the lifecycle endpoints of backend/server.py

    A shallow embedding of the bot records, the log store, the WebSocket
    connection manager and the start / stop / restart / delete / listing
    endpoints, followed by the properties of the lifecycle that the
    specification states about them.

    The endpoints are coroutines that read and write two collections of a
    document store, a module-level connection manager, the wall clock and
    the random number generator.  They are embedded as functions in a
    state-and-exception monad over a [World] that holds all of these. *)

From Stdlib Require Import ZArith QArith String Ascii List Lia.
From stdpp Require Import base tactics option list strings gmap pretty.

Local Open Scope Z_scope.
Local Open Scope string_scope.
Local Open Scope list_scope.

(** ** Enums and models *)

Inductive BotStatus : Set :=
  | RUNNING
  | STOPPED
  | ERROR
  | STARTING
  | STOPPING.

Inductive BotType : Set :=
  | DISCORD
  | TELEGRAM
  | WEBHOOK
  | GENERAL.

#[global] Instance BotStatus_eq_dec : EqDecision BotStatus.
Proof. solve_decision. Defined.

(** Timestamps are seconds on the clock of the [World]; the float readings
    of psutil are kept as rationals, they are only ever copied. *)
Definition datetime := Z.
Definition float := Q.

Record Bot := mkBot {
  id : string;
  name : string;
  description : option string;
  bot_type : BotType;
  status : BotStatus;
  port : option Z;
  command : string;
  working_directory : string;
  environment_vars : gmap string string;
  pid : option Z;
  created_at : datetime;
  last_started : option datetime;
  last_stopped : option datetime;
  cpu_usage : float;
  memory_usage : float;
  uptime : option Z
}.

Record BotCreate := mkBotCreate {
  bc_name : string;
  bc_description : option string;
  bc_bot_type : BotType;
  bc_command : string;
  bc_working_directory : string;
  bc_environment_vars : gmap string string;
  bc_port : option Z
}.

Record BotUpdate := mkBotUpdate {
  bu_name : option string;
  bu_description : option string;
  bu_command : option string;
  bu_working_directory : option string;
  bu_environment_vars : option (gmap string string);
  bu_port : option Z
}.

Record LogEntry := mkLogEntry {
  log_id : string;
  bot_id : string;
  timestamp : datetime;
  level : string;
  message : string;
  source : string
}.

Record LogEntryCreate := mkLogEntryCreate {
  lc_bot_id : string;
  lc_level : string;
  lc_message : string;
  lc_source : string
}.

(** What [get_process_stats] reads from the operating system for one
    process, with the command line and directory the process was created
    from. *)
Record Process := mkProcess {
  proc_cmdline : string;
  proc_cwd : string;
  proc_cpu_percent : float;
  proc_memory_percent : float;
  proc_create_time : Z
}.

Record ProcessStats := mkStats {
  st_cpu_usage : float;
  st_memory_usage : float;
  st_create_time : Z
}.

(** A WebSocket is an object compared by identity: [ws_id] is that
    identity, [ws_open] tells whether [send_text] on it succeeds. *)
Record WebSocket := mkWebSocket {
  ws_id : nat;
  ws_open : bool
}.

(** The JSON texts handed to [broadcast], by their content. *)
Inductive Message :=
  | MsgLog (entry : LogEntry)
  | MsgSystemUpdate (total_bots active_bots : nat) (running_bots : list Bot).

(** One call of [send_text]: the connection, the text, and whether it was
    delivered ([false]: the call raised). *)
Record SendEvent := mkSend {
  sent_to : nat;
  sent_text : Message;
  sent_ok : bool
}.

(** ** The world the coroutines run in *)

Record World := mkWorld {
  db_bots : list Bot;                    (* db.bots, in insertion order *)
  db_logs : list LogEntry;               (* db.logs, in insertion order *)
  active_connections : list WebSocket;   (* manager.active_connections *)
  send_log : list SendEvent;             (* every send_text call so far *)
  clock : datetime;                      (* datetime.utcnow() *)
  uuid_ctr : nat;                        (* supply of uuid.uuid4() *)
  rand : list Z;                         (* entropy of random.randint *)
  faults : list (option string);         (* outcome of the next store writes *)
  os_environ : gmap string string;       (* os.environ *)
  processes : gmap Z Process             (* the operating system's table *)
}.

Definition set_db_bots (f : list Bot → list Bot) (w : World) : World :=
  mkWorld (f (db_bots w)) (db_logs w) (active_connections w) (send_log w)
          (clock w) (uuid_ctr w) (rand w) (faults w) (os_environ w) (processes w).

Definition set_db_logs (f : list LogEntry → list LogEntry) (w : World) : World :=
  mkWorld (db_bots w) (f (db_logs w)) (active_connections w) (send_log w)
          (clock w) (uuid_ctr w) (rand w) (faults w) (os_environ w) (processes w).

Definition set_active_connections (f : list WebSocket → list WebSocket)
    (w : World) : World :=
  mkWorld (db_bots w) (db_logs w) (f (active_connections w)) (send_log w)
          (clock w) (uuid_ctr w) (rand w) (faults w) (os_environ w) (processes w).

Definition set_send_log (f : list SendEvent → list SendEvent) (w : World) : World :=
  mkWorld (db_bots w) (db_logs w) (active_connections w) (f (send_log w))
          (clock w) (uuid_ctr w) (rand w) (faults w) (os_environ w) (processes w).

Definition set_clock (f : datetime → datetime) (w : World) : World :=
  mkWorld (db_bots w) (db_logs w) (active_connections w) (send_log w)
          (f (clock w)) (uuid_ctr w) (rand w) (faults w) (os_environ w) (processes w).

Definition set_uuid_ctr (f : nat → nat) (w : World) : World :=
  mkWorld (db_bots w) (db_logs w) (active_connections w) (send_log w)
          (clock w) (f (uuid_ctr w)) (rand w) (faults w) (os_environ w) (processes w).

Definition set_rand (f : list Z → list Z) (w : World) : World :=
  mkWorld (db_bots w) (db_logs w) (active_connections w) (send_log w)
          (clock w) (uuid_ctr w) (f (rand w)) (faults w) (os_environ w) (processes w).

Definition set_faults (f : list (option string) → list (option string))
    (w : World) : World :=
  mkWorld (db_bots w) (db_logs w) (active_connections w) (send_log w)
          (clock w) (uuid_ctr w) (rand w) (f (faults w)) (os_environ w) (processes w).

(** ** Exceptions and the monad of coroutines *)

Inductive Exc :=
  | HTTPException (status_code : Z) (detail : string)
  | Exception (msg : string)
  | ValueError (msg : string).

Inductive Res (A : Type) :=
  | Ok (a : A)
  | Raise (e : Exc).
Arguments Ok {A} a.
Arguments Raise {A} e.

Definition M (A : Type) : Type := World → Res A * World.

Definition ret {A} (a : A) : M A := fun w => (Ok a, w).

Definition raise {A} (e : Exc) : M A := fun w => (Raise e, w).

Definition bind {A B} (m : M A) (k : A → M B) : M B :=
  fun w => match m w with
           | (Ok a, w') => k a w'
           | (Raise e, w') => (Raise e, w')
           end.

Notation "'let*' x ':=' m 'in' k" := (bind m (fun x => k))
  (at level 10, x name, m at level 100, k at level 200).
Notation "m '>>' k" := (bind m (fun _ => k))
  (at level 100, k at level 200, right associativity).

(** [try: m  except Exception as e: h e] and the bare [except:]; every
    exception of the model is an [Exception]. *)
Definition try_except {A} (m : M A) (h : Exc → M A) : M A :=
  fun w => match m w with
           | (Ok a, w') => (Ok a, w')
           | (Raise e, w') => h e w'
           end.

(** [try: m  except HTTPException as e: h e]: anything else passes. *)
Definition try_except_http {A} (m : M A) (h : Z → string → M A) : M A :=
  fun w => match m w with
           | (Ok a, w') => (Ok a, w')
           | (Raise (HTTPException c d), w') => h c d w'
           | (Raise e, w') => (Raise e, w')
           end.

(** [str(e)] *)
Definition str_exc (e : Exc) : string :=
  match e with
  | HTTPException c d => pretty c +:+ ": " +:+ d
  | Exception m => m
  | ValueError m => m
  end.

(** ** The environment: clock, uuid4, randint, the store's write calls *)

Definition utcnow : M datetime := fun w => (Ok (clock w), w).

Definition uuid_of (n : nat) : string := "uuid-" +:+ pretty n.

Definition uuid4 : M string :=
  fun w => (Ok (uuid_of (uuid_ctr w)), set_uuid_ctr S w).

(** [random.randint(a, b)]: the next word of entropy, brought into
    [a .. b]. *)
Definition next_rand (l : list Z) : Z :=
  match l with
  | x :: _ => x
  | [] => 0
  end.

Definition randint (a b : Z) : M Z :=
  fun w => (Ok (a + next_rand (rand w) `mod` (b - a + 1)), set_rand (drop 1) w).

(** [asyncio.sleep(n)]: the clock moves on. *)
Definition sleep (n : Z) : M unit := fun w => (Ok tt, set_clock (Z.add n) w).

(** [needle in hay] on strings *)
Fixpoint str_in (needle hay : string) : bool :=
  String.prefix needle hay ||
  match hay with
  | EmptyString => false
  | String _ hay' => str_in needle hay'
  end.

(** Every write call on the store ([insert_one], [update_one],
    [delete_one], [delete_many]) first consumes the next entry of
    [faults]: [Some msg] makes the driver raise an exception whose text is
    [msg] and leaves the collection untouched; [None], or an exhausted
    schedule, lets the write happen.  Reads always answer. *)
Definition store_write : M unit :=
  fun w => match faults w with
           | Some msg :: _ => (Raise (Exception msg), set_faults (drop 1) w)
           | _ => (Ok tt, set_faults (drop 1) w)
           end.

(** ** The document store *)

(** [find_one({"id": i})]: the first document with that id. *)
Fixpoint find_one (i : string) (docs : list Bot) : option Bot :=
  match docs with
  | [] => None
  | b :: rest => if decide (id b = i) then Some b else find_one i rest
  end.

(** [update_one({"id": i}, {"$set": ...})]: the first document with that
    id is changed, nothing happens when there is none. *)
Fixpoint update_one (i : string) (f : Bot → Bot) (docs : list Bot) : list Bot :=
  match docs with
  | [] => []
  | b :: rest => if decide (id b = i) then f b :: rest
                 else b :: update_one i f rest
  end.

(** [delete_one({"id": i})] *)
Fixpoint delete_one (i : string) (docs : list Bot) : list Bot :=
  match docs with
  | [] => []
  | b :: rest => if decide (id b = i) then rest else b :: delete_one i rest
  end.

(** [delete_many({"bot_id": i})] on the logs *)
Definition delete_many (i : string) (docs : list LogEntry) : list LogEntry :=
  filter (fun e => bot_id e ≠ i) docs.

(** The keys [update_bot_status] may put in its [$set] document. *)
Record UpdateData := mkUpdate {
  upd_status : option BotStatus;
  upd_pid : option (option Z);
  upd_last_started : option datetime;
  upd_last_stopped : option datetime
}.

Definition apply_set (u : UpdateData) (b : Bot) : Bot :=
  mkBot (id b) (name b) (description b) (bot_type b)
        (default (status b) (upd_status u))
        (port b) (command b) (working_directory b) (environment_vars b)
        (default (pid b) (upd_pid u))
        (created_at b)
        (from_option Some (last_started b) (upd_last_started u))
        (from_option Some (last_stopped b) (upd_last_stopped u))
        (cpu_usage b) (memory_usage b) (uptime b).

(** ** Utility functions *)

Definition get_bot_by_id (bot_id : string) : M (option Bot) :=
  fun w => (Ok (find_one bot_id (db_bots w)), w).

(** The [$set] document of [update_bot_status], key by key in the order
    the source assigns them. *)
Definition update_data_of (status : BotStatus) (pid : option Z) (now : datetime)
    : UpdateData :=
  let update_data := mkUpdate (Some status) None None None in
  let update_data :=
    match pid with
    | Some p => mkUpdate (upd_status update_data) (Some (Some p))
                         (upd_last_started update_data) (upd_last_stopped update_data)
    | None => update_data
    end in
  match status with
  | RUNNING => mkUpdate (upd_status update_data) (upd_pid update_data)
                        (Some now) (upd_last_stopped update_data)
  | STOPPED => mkUpdate (upd_status update_data) (Some None)
                        (upd_last_started update_data) (Some now)
  | _ => update_data
  end.

Definition update_bot_status (bot_id : string) (status : BotStatus)
    (pid : option Z) : M unit :=
  let* now := utcnow in
  let update_data := update_data_of status pid now in
  store_write >>
  fun w => (Ok tt, set_db_bots (update_one bot_id (apply_set update_data)) w).

(** ** WebSocket connection manager *)

(** [connection.send_text(message)]: raises on a closed connection.  Each
    call is recorded in [send_log]. *)
Definition send_text (connection : WebSocket) (message : Message) : M unit :=
  fun w =>
    let w' := set_send_log
                (fun l => l ++ [mkSend (ws_id connection) message (ws_open connection)]) w in
    if ws_open connection then (Ok tt, w')
    else (Raise (Exception "WebSocket is not connected"), w').

(** [list.remove(x)]: drops the first entry that is [x]; [None] stands for
    the [ValueError] of a list that does not hold [x]. *)
Fixpoint list_remove (x : WebSocket) (l : list WebSocket) : option (list WebSocket) :=
  match l with
  | [] => None
  | y :: rest => if decide (ws_id y = ws_id x) then Some rest
                 else cons y <$> list_remove x rest
  end.

Definition connect (websocket : WebSocket) : M unit :=
  fun w => (Ok tt, set_active_connections (fun l => l ++ [websocket]) w).

Definition remove_connection (websocket : WebSocket) : M unit :=
  fun w => match list_remove websocket (active_connections w) with
           | Some l => (Ok tt, set_active_connections (fun _ => l) w)
           | None => (Raise (ValueError "list.remove(x): x not in list"), w)
           end.

Definition disconnect (websocket : WebSocket) : M unit :=
  remove_connection websocket.

(** [for connection in self.active_connections: ...] walks the live list
    by index: the iterator holds the position [i], reads the entry there
    if there is one, and moves on to [i + 1], whatever the body did to the
    list.  [fuel] bounds the number of rounds. *)
Fixpoint broadcast_from (fuel : nat) (i : nat) (message : Message) : M unit :=
  match fuel with
  | O => ret tt
  | S fuel' =>
      fun w =>
        match active_connections w !! i with
        | None => (Ok tt, w)
        | Some connection =>
            (try_except (send_text connection message)
                        (fun _ => remove_connection connection) >>
             broadcast_from fuel' (S i) message) w
        end
  end.

(** The list never grows during the walk, so its length at the start is
    fuel enough (lemma [broadcast_from_fuel] below). *)
Definition broadcast (message : Message) : M unit :=
  fun w => broadcast_from (length (active_connections w)) 0 message w.

Definition log_message (bot_id level message source : string) : M unit :=
  let* i := uuid4 in
  let* now := utcnow in
  let log_entry := mkLogEntry i bot_id now level message source in
  store_write >>
  (fun w => (Ok tt, set_db_logs (fun l => l ++ [log_entry]) w)) >>
  broadcast (MsgLog log_entry).

(** [psutil.Process(pid)] and its readings; [None] on [NoSuchProcess]. *)
Definition get_process_stats (pid : Z) : M (option ProcessStats) :=
  fun w => (Ok ((fun p => mkStats (proc_cpu_percent p) (proc_memory_percent p)
                                  (proc_create_time p)) <$> processes w !! pid), w).

(** ** API routes *)

Inductive Reply :=
  | Reply_message (message : string)
  | Reply_message_pid (message : string) (pid : Z).

Definition new_bot (i : string) (now : datetime) (bot_data : BotCreate) : Bot :=
  mkBot i (bc_name bot_data) (bc_description bot_data) (bc_bot_type bot_data)
        STOPPED (bc_port bot_data) (bc_command bot_data)
        (bc_working_directory bot_data) (bc_environment_vars bot_data)
        None now None None 0%Q 0%Q None.

Definition create_bot (bot_data : BotCreate) : M Bot :=
  let* i := uuid4 in
  let* now := utcnow in
  let bot := new_bot i now bot_data in
  store_write >>
  (fun w => (Ok tt, set_db_bots (fun l => l ++ [bot]) w)) >>
  log_message (id bot) "INFO" ("Bot '" +:+ name bot +:+ "' created") "api" >>
  ret bot.

(** The truth value of [bot.pid]: [None] and [0] are false. *)
Definition truthy (pid : option Z) : bool :=
  match pid with
  | Some p => negb (Z.eqb p 0)
  | None => false
  end.

Definition with_stats (bot : Bot) (stats : ProcessStats) (now : datetime) : Bot :=
  mkBot (id bot) (name bot) (description bot) (bot_type bot) (status bot)
        (port bot) (command bot) (working_directory bot) (environment_vars bot)
        (pid bot) (created_at bot) (last_started bot) (last_stopped bot)
        (st_cpu_usage stats) (st_memory_usage stats)
        (Some (now - st_create_time stats)).

Definition with_status (bot : Bot) (s : BotStatus) : Bot :=
  mkBot (id bot) (name bot) (description bot) (bot_type bot) s
        (port bot) (command bot) (working_directory bot) (environment_vars bot)
        (pid bot) (created_at bot) (last_started bot) (last_stopped bot)
        (cpu_usage bot) (memory_usage bot) (uptime bot).

(** The statistics block that [get_bots] runs on each bot and [get_bot]
    on the one it found: it works on the copy that is returned; only
    [update_bot_status] touches the store. *)
Definition refresh_stats (bot : Bot) : M Bot :=
  if bool_decide (status bot = RUNNING) && truthy (pid bot) then
    let* stats := get_process_stats (default 0 (pid bot)) in
    match stats with
    | Some stats =>
        let* now := utcnow in
        ret (with_stats bot stats now)
    | None =>
        update_bot_status (id bot) STOPPED None >>
        ret (with_status bot STOPPED)
    end
  else ret bot.

Fixpoint get_bots_loop (bots : list Bot) : M (list Bot) :=
  match bots with
  | [] => ret []
  | bot :: rest =>
      let* bot' := refresh_stats bot in
      let* rest' := get_bots_loop rest in
      ret (bot' :: rest')
  end.

Definition get_bots : M (list Bot) :=
  let* bots := (fun w => (Ok (take 1000 (db_bots w)), w)) in
  get_bots_loop bots.

Definition get_bot (bot_id : string) : M Bot :=
  let* bot := get_bot_by_id bot_id in
  match bot with
  | None => raise (HTTPException 404 "Bot not found")
  | Some bot => refresh_stats bot
  end.

(** [{k: v for k, v in bot_update.dict().items() if v is not None}] as a
    [$set]: the fields that are given replace the record's. *)
Definition apply_update (u : BotUpdate) (b : Bot) : Bot :=
  mkBot (id b)
        (default (name b) (bu_name u))
        (from_option Some (description b) (bu_description u))
        (bot_type b) (status b)
        (from_option Some (port b) (bu_port u))
        (default (command b) (bu_command u))
        (default (working_directory b) (bu_working_directory u))
        (default (environment_vars b) (bu_environment_vars u))
        (pid b) (created_at b) (last_started b) (last_stopped b)
        (cpu_usage b) (memory_usage b) (uptime b).

(** The truth value of the dictionary [update_data]: some field is
    given. *)
Definition some_field (u : BotUpdate) : bool :=
  bool_decide (is_Some (bu_name u)) || bool_decide (is_Some (bu_description u)) ||
  bool_decide (is_Some (bu_command u)) ||
  bool_decide (is_Some (bu_working_directory u)) ||
  bool_decide (is_Some (bu_environment_vars u)) || bool_decide (is_Some (bu_port u)).

Definition update_bot (bot_id : string) (bot_update : BotUpdate) : M (option Bot) :=
  let* bot := get_bot_by_id bot_id in
  match bot with
  | None => raise (HTTPException 404 "Bot not found")
  | Some bot =>
      (if some_field bot_update then
         store_write >>
         (fun w => (Ok tt, set_db_bots (update_one bot_id (apply_update bot_update)) w)) >>
         log_message bot_id "INFO" ("Bot '" +:+ name bot +:+ "' updated") "api"
       else ret tt) >>
      get_bot_by_id bot_id
  end.

(** [add_bot_log] stores the entry under the [bot_id] of its body, not
    the one of the path. *)
Definition add_bot_log (bot_id : string) (log_data : LogEntryCreate) : M LogEntry :=
  let* i := uuid4 in
  let* now := utcnow in
  let log_entry := mkLogEntry i (lc_bot_id log_data) now (lc_level log_data)
                              (lc_message log_data) (lc_source log_data) in
  store_write >>
  (fun w => (Ok tt, set_db_logs (fun l => l ++ [log_entry]) w)) >>
  broadcast (MsgLog log_entry) >>
  ret log_entry.

(** [env = os.environ.copy(); env.update(bot.environment_vars)]: the
    record's variables win over the inherited ones. *)
Definition build_env (bot : Bot) : M (gmap string string) :=
  fun w => (Ok (environment_vars bot ∪ os_environ w), w).

Definition start_bot (bot_id : string) : M Reply :=
  let* bot := get_bot_by_id bot_id in
  match bot with
  | None => raise (HTTPException 404 "Bot not found")
  | Some bot =>
      if bool_decide (status bot = RUNNING)
      then raise (HTTPException 400 "Bot is already running")
      else
        try_except
          (update_bot_status bot_id STARTING None >>
           log_message bot_id "INFO" ("Starting bot '" +:+ name bot +:+ "'") "api" >>
           let* env := build_env bot in
           let* fake_pid := randint 1000 9999 in
           update_bot_status bot_id RUNNING (Some fake_pid) >>
           log_message bot_id "INFO"
             ("Bot '" +:+ name bot +:+ "' started successfully with PID "
              +:+ pretty fake_pid) "system" >>
           ret (Reply_message_pid "Bot started successfully" fake_pid))
          (fun e =>
             update_bot_status bot_id ERROR None >>
             log_message bot_id "ERROR" ("Failed to start bot: " +:+ str_exc e) "system" >>
             raise (HTTPException 500 ("Failed to start bot: " +:+ str_exc e)))
  end.

Definition stop_bot (bot_id : string) : M Reply :=
  let* bot := get_bot_by_id bot_id in
  match bot with
  | None => raise (HTTPException 404 "Bot not found")
  | Some bot =>
      if negb (bool_decide (status bot = RUNNING))
      then raise (HTTPException 400 "Bot is not running")
      else
        try_except
          (update_bot_status bot_id STOPPING None >>
           log_message bot_id "INFO" ("Stopping bot '" +:+ name bot +:+ "'") "api" >>
           (if truthy (pid bot) then ret tt else ret tt) >>
           update_bot_status bot_id STOPPED None >>
           log_message bot_id "INFO"
             ("Bot '" +:+ name bot +:+ "' stopped successfully") "system" >>
           ret (Reply_message "Bot stopped successfully"))
          (fun e =>
             update_bot_status bot_id ERROR None >>
             log_message bot_id "ERROR" ("Failed to stop bot: " +:+ str_exc e) "system" >>
             raise (HTTPException 500 ("Failed to stop bot: " +:+ str_exc e)))
  end.

Definition restart_bot (bot_id : string) : M Reply :=
  try_except_http
    (stop_bot bot_id >>
     sleep 1 >>
     start_bot bot_id)
    (fun status_code detail =>
       if str_in "not running" detail
       then start_bot bot_id
       else raise (HTTPException status_code detail)).

Definition delete_bot (bot_id : string) : M Reply :=
  let* bot := get_bot_by_id bot_id in
  match bot with
  | None => raise (HTTPException 404 "Bot not found")
  | Some bot =>
      (if bool_decide (status bot = RUNNING)
       then stop_bot bot_id >> ret tt
       else ret tt) >>
      store_write >>
      (fun w => (Ok tt, set_db_bots (delete_one bot_id) w)) >>
      store_write >>
      (fun w => (Ok tt, set_db_logs (delete_many bot_id) w)) >>
      log_message bot_id "INFO" ("Bot '" +:+ name bot +:+ "' deleted") "api" >>
      ret (Reply_message "Bot deleted successfully")
  end.

(** ** The periodic pass of the WebSocket endpoint *)

(** One round of the body of [while True] in [websocket_endpoint]; the
    host readings of [get_system_metrics] are left out of the message, the
    two bot counts are kept. *)
Fixpoint running_bots_loop (bots_data : list Bot) (bots_with_stats : list Bot)
    : M (list Bot) :=
  match bots_data with
  | [] => ret bots_with_stats
  | bot :: rest =>
      if truthy (pid bot) then
        let* stats := get_process_stats (default 0 (pid bot)) in
        match stats with
        | Some stats =>
            let* now := utcnow in
            running_bots_loop rest (bots_with_stats ++ [with_stats bot stats now])
        | None =>
            update_bot_status (id bot) STOPPED None >>
            running_bots_loop rest bots_with_stats
        end
      else running_bots_loop rest (bots_with_stats ++ [bot])
  end.

Definition is_running (b : Bot) : Prop := status b = RUNNING.

Definition websocket_pass : M unit :=
  sleep 5 >>
  let* total_bots := (fun w => (Ok (length (db_bots w)), w)) in
  let* active_bots := (fun w => (Ok (length (filter is_running (db_bots w))), w)) in
  let* bots_data := (fun w => (Ok (take 100 (filter is_running (db_bots w))), w)) in
  let* bots_with_stats := running_bots_loop bots_data [] in
  broadcast (MsgSystemUpdate total_bots active_bots bots_with_stats).
(** ** Auxiliary definitions for the statements *)

(** The world a broadcast leaves behind. *)
Definition after_broadcast (message : Message) (w : World) : World :=
  snd (broadcast message w).

(** What the walk of [broadcast] amounts to on a list of distinct
    connections, read off the list front to back: a delivery keeps the
    connection; a failed one drops it, and the entry behind it moves into
    the position the iterator has just left, so it is kept without being
    visited.  The result is the list kept and the connections visited,
    each with the outcome of its [send_text]. *)
Fixpoint walk (l : list WebSocket) : list WebSocket * list (nat * bool) :=
  match l with
  | [] => ([], [])
  | c :: rest =>
      if ws_open c then
        let '(kept, visited) := walk rest in
        (c :: kept, (ws_id c, true) :: visited)
      else
        match rest with
        | [] => ([], [(ws_id c, false)])
        | c' :: rest' =>
            let '(kept, visited) := walk rest' in
            (c' :: kept, (ws_id c, false) :: visited)
        end
  end.

Definition events (message : Message) (visited : list (nat * bool)) : list SendEvent :=
  (fun v => mkSend v.1 message v.2) <$> visited.

(** No entry of the fault schedule makes a store write fail. *)
Definition no_faults (w : World) : Prop :=
  Forall (fun f => f = None) (faults w).

(** The outcome the fault schedule [l] holds for the next store write. *)
Definition next_fault (l : list (option string)) : option string :=
  match l with
  | f :: _ => f
  | [] => None
  end.

(** The pid [start_bot] draws in world [w]. *)
Definition fake_pid_of (w : World) : Z :=
  1000 + next_rand (rand w) `mod` (9999 - 1000 + 1).

(** ** Sample worlds *)

(** One freshly created bot, the way [create_bot] stores it, in an
    otherwise empty world with no operating-system process at all. *)
Definition demo_bot : Bot :=
  mkBot "b1" "alpha" (Some "") GENERAL STOPPED None "python bot.py" "/app"
        ∅ None 5 None None 0%Q 0%Q None.

Definition demo_world : World :=
  mkWorld [demo_bot] [] [] [] 100 7 [4242] [] ∅ ∅.

(** The same world after a successful [start_bot]. *)
Definition demo_started : World := snd (start_bot "b1" demo_world).

(** The same world with a store whose second and third writes fail. *)
Definition demo_flaky : World :=
  set_faults (fun _ => [None; Some "connection reset"; Some "connection reset"])
             demo_world.

(** The started bot in front of a store whose next write fails with a
    driver error that happens to contain the words "not running". *)
Definition demo_outage : World :=
  set_faults (fun _ => [Some "replica set member is not running"]) demo_started.

(** The record of identifier [i] in [docs] is Stopped, without a pid,
    and was stopped at time [t]. *)
Definition stopped_at (t : datetime) (docs : list Bot) (i : string) : Prop :=
  ∃ b, find_one i docs = Some b ∧
       status b = STOPPED ∧ pid b = None ∧ last_stopped b = Some t.

(** A bot that the statistics block puts back to Stopped in world [w]:
    Running, with a pid that counts as true, and no process of that pid. *)
Definition vanished (w : World) (b : Bot) : Prop :=
  status b = RUNNING ∧
  ∃ p, pid b = Some p ∧ p ≠ 0 ∧ processes w !! p = None.

(** A record at rest: Stopped without a pid, or Running with one. *)
Definition settled (b : Bot) : Prop :=
  (status b = STOPPED ∧ pid b = None) ∨ (status b = RUNNING ∧ pid b ≠ None).

(** What the store and the rest of the world look like after a pass that
    only ever calls [update_bot_status (..) STOPPED]: nothing is logged or
    sent, records stay, a stopped record stays stopped, and records at
    rest stay at rest. *)
Definition quiet_pass (w w' : World) : Prop :=
  db_logs w' = db_logs w ∧ send_log w' = send_log w ∧
  active_connections w' = active_connections w ∧
  clock w' = clock w ∧ processes w' = processes w ∧ no_faults w' ∧
  (∀ i, is_Some (find_one i (db_bots w)) → is_Some (find_one i (db_bots w'))) ∧
  (∀ i, stopped_at (clock w) (db_bots w) i → stopped_at (clock w) (db_bots w') i) ∧
  (Forall settled (db_bots w) → Forall settled (db_bots w')).

(** The record of the started bot in [demo_started]. *)
Definition demo_running_bot : Bot :=
  mkBot "b1" "alpha" (Some "") GENERAL RUNNING None "python bot.py" "/app"
        ∅ (Some 5242) 5 (Some 100) None 0%Q 0%Q None.

(** Three listeners on [demo_world]; the second one has gone away. *)
Definition demo_listeners : World :=
  set_active_connections
    (fun _ => [mkWebSocket 0 true; mkWebSocket 1 false; mkWebSocket 2 true])
    demo_world.

Definition demo_message : Message :=
  MsgLog (mkLogEntry "uuid-0" "b1" 100 "INFO" "hello" "bot").

(** ** The lifecycle as a transition system *)

(** What the code maintains between a record's status and its pid:
    [update_bot_status] clears the pid when it sets Stopped, sets it when
    [start_bot] sets Running, and leaves it alone on every other
    status. *)
Definition pid_consistent (b : Bot) : Prop :=
  match status b with
  | STOPPED => pid b = None
  | RUNNING | STOPPING => pid b ≠ None
  | STARTING | ERROR => True
  end.

Definition store_consistent (w : World) : Prop :=
  Forall pid_consistent (db_bots w).

(** The invariant of the specification: a pid exactly in Running and
    Stopping. *)
Definition pid_iff_live (b : Bot) : Prop :=
  pid b ≠ None ↔ (status b = RUNNING ∨ status b = STOPPING).

(** The requests that change the store, and the periodic pass. *)
Inductive Request :=
  | CreateBot (bot_data : BotCreate)
  | UpdateBot (bot_id : string) (bot_update : BotUpdate)
  | AddBotLog (bot_id : string) (log_data : LogEntryCreate)
  | StartBot (bot_id : string)
  | StopBot (bot_id : string)
  | RestartBot (bot_id : string)
  | DeleteBot (bot_id : string)
  | GetBots
  | GetBot (bot_id : string)
  | WebsocketPass.

(** The world after a request has been served, whether it returned or
    raised. *)
Definition serve (r : Request) (w : World) : World :=
  match r with
  | CreateBot bot_data => snd (create_bot bot_data w)
  | UpdateBot i bot_update => snd (update_bot i bot_update w)
  | AddBotLog i log_data => snd (add_bot_log i log_data w)
  | StartBot i => snd (start_bot i w)
  | StopBot i => snd (stop_bot i w)
  | RestartBot i => snd (restart_bot i w)
  | DeleteBot i => snd (delete_bot i w)
  | GetBots => snd (get_bots w)
  | GetBot i => snd (get_bot i w)
  | WebsocketPass => snd (websocket_pass w)
  end.

(** The worlds the server can be in: it starts on an empty collection of
    bots, in any environment; it serves requests; and between requests
    the environment (clock, processes, connections, the store's future
    behaviour) changes freely, the bots collection does not. *)
Inductive reachable : World → Prop :=
  | reachable_init w : db_bots w = [] → reachable w
  | reachable_serve r w : reachable w → reachable (serve r w)
  | reachable_env w w' : reachable w → db_bots w' = db_bots w → reachable w'.

(** A coroutine that keeps the store consistent, however it ends. *)
Definition preserves {A} (m : M A) : Prop :=
  ∀ w, store_consistent w → store_consistent (snd (m w)).

(** The same worlds, for a store that never fails: the schedule of the
    initial world, and every schedule the environment puts in its place,
    holds no fault. *)
Inductive reachable_calm : World → Prop :=
  | calm_init w : db_bots w = [] → no_faults w → reachable_calm w
  | calm_serve r w : reachable_calm w → reachable_calm (serve r w)
  | calm_env w w' :
      reachable_calm w → db_bots w' = db_bots w → no_faults w' →
      reachable_calm w'.

(** A world at rest: the store does not fail and every record is
    [settled]. *)
Definition at_rest (w : World) : Prop :=
  no_faults w ∧ Forall settled (db_bots w).

(** An empty server, the request that creates the demo bot on it, and the
    same server in front of a store whose sixth write fails: the two
    writes of [create_bot] and the first three of [start_bot] go through,
    the write of the "started" log entry does not. *)
Definition demo_data : BotCreate :=
  mkBotCreate "alpha" (Some "") GENERAL "python bot.py" "/app" ∅ None.

Definition demo_empty : World :=
  mkWorld [] [] [] [] 100 0 [4242] [] ∅ ∅.

Definition demo_sixth_write_fails : World :=
  set_faults
    (fun _ => [None; None; None; None; None; Some "connection reset"])
    demo_empty.

(** The same, with a second outage later on: after the failed start has
    been recorded (two writes), the next [start_bot] writes Starting, and
    then loses both its log write and its write of the Error status. *)
Definition demo_two_outages : World :=
  set_faults
    (fun _ => [None; None; None; None; None; Some "connection reset";
               None; None;
               None; Some "connection reset"; Some "connection reset"])
    demo_empty.

(** ** Further definitions: what a request leaves alone *)

Definition send_personal_message (message : Message) (websocket : WebSocket) : M unit :=
  send_text websocket message.

(** A coroutine that takes every world to one related to it by [R],
    however it ends. *)
Definition respects (R : World → World → Prop) {A} (m : M A) : Prop :=
  ∀ w, R w (snd (m w)).

(** The records are the same ones, in the same order. *)
Definition same_ids (w w' : World) : Prop :=
  id <$> db_bots w' = id <$> db_bots w.

(** The log store has only been appended to. *)
Definition logs_grow (w w' : World) : Prop :=
  db_logs w `prefix_of` db_logs w'.

(** The operating system's side is untouched. *)
Definition same_host (w w' : World) : Prop :=
  processes w' = processes w ∧ os_environ w' = os_environ w.

(** No connection has been added, and the ones left are in their order. *)
Definition no_new_listener (w w' : World) : Prop :=
  active_connections w' `sublist_of` active_connections w.

(** Two listeners on [demo_world], both there. *)
Definition demo_audience : World :=
  set_active_connections
    (fun _ => [mkWebSocket 0 true; mkWebSocket 2 true]) demo_world.

(** An empty server in front of a store that takes the next write and
    refuses the one after it. *)
Definition demo_second_write_fails : World :=
  set_faults (fun _ => [None; Some "connection reset"]) demo_empty.

(** The lifecycle side of a record: what [update_bot] has no field for. *)
Definition lifecycle (b : Bot) :
    string * BotType * BotStatus * option Z * datetime * option datetime * option datetime :=
  (id b, bot_type b, status b, pid b, created_at b, last_started b, last_stopped b).

(** An update that gives no field, and one that renames the bot. *)
Definition demo_no_update : BotUpdate := mkBotUpdate None None None None None None.

Definition demo_rename : BotUpdate :=
  mkBotUpdate (Some "beta") None None None None None.



(** What the listing answers on [demo_started]. *)
Definition demo_listing : list Bot := [with_status demo_running_bot STOPPED].

(** A log entry sent in for a bot that does not exist. *)
Definition demo_log_data : LogEntryCreate :=
  mkLogEntryCreate "no-such-bot" "INFO" "hello" "bot".

(** * Properties *)

(** ** The store *)

Lemma id_apply_set u b : id (apply_set u b) = id b.
Proof. reflexivity. Qed.

Lemma find_one_update_one i j f docs :
  (∀ b, id (f b) = id b) →
  find_one i (update_one j f docs) =
    if decide (i = j) then f <$> find_one i docs else find_one i docs.
Proof.
  intros Hid. induction docs as [|b rest IH]; simpl.
  - by destruct (decide (i = j)).
  - destruct (decide (id b = j)) as [Hj|Hj]; simpl.
    + rewrite Hid. destruct (decide (i = j)) as [->|Hij].
      * rewrite decide_True by done. by rewrite decide_True by done.
      * rewrite decide_False by congruence. by rewrite decide_False by congruence.
    + destruct (decide (id b = i)) as [Hi|Hi].
      * rewrite decide_False by congruence. done.
      * exact IH.
Qed.

Lemma delete_one_update_one i f docs :
  (∀ b, id (f b) = id b) →
  delete_one i (update_one i f docs) = delete_one i docs.
Proof.
  intros Hid. induction docs as [|b rest IH]; simpl; [done|].
  destruct (decide (id b = i)) as [Hi|Hi]; simpl.
  - by rewrite Hid, decide_True.
  - by rewrite decide_False, IH.
Qed.

Lemma find_one_elem_of i docs b : find_one i docs = Some b → b ∈ docs ∧ id b = i.
Proof.
  induction docs as [|x rest IH]; simpl; [done|].
  destruct (decide (id x = i)); intros H.
  - inversion H; subst. split; [left|done].
  - destruct (IH H). split; [by right|done].
Qed.

Lemma elem_of_find_one b docs : b ∈ docs → is_Some (find_one (id b) docs).
Proof.
  induction 1 as [x rest|x y rest _ IH]; simpl.
  - rewrite decide_True by done. eauto.
  - destruct (decide (id y = id x)); eauto.
Qed.

Lemma Forall_update_one (P : Bot → Prop) i f docs :
  Forall P docs →
  (∀ b, find_one i docs = Some b → P b → P (f b)) →
  Forall P (update_one i f docs).
Proof.
  induction 1 as [|b rest Hb Hrest IH]; simpl; intros Hf; [constructor|].
  destruct (decide (id b = i)).
  - constructor; [apply Hf; auto|done].
  - constructor; [done|apply IH, Hf].
Qed.

Lemma Forall_delete_one (P : Bot → Prop) i docs :
  Forall P docs → Forall P (delete_one i docs).
Proof.
  induction 1 as [|b rest Hb Hrest IH]; simpl; [constructor|].
  destruct (decide (id b = i)); [done|by constructor].
Qed.

(** ** The connection manager *)

Lemma list_remove_lookup l i c :
  l !! i = Some c → ∃ l', list_remove c l = Some l' ∧ S (length l') = length l.
Proof.
  revert i. induction l as [|y rest IH]; intros i Hi; [done|]. simpl.
  destruct (decide (ws_id y = ws_id c)); [eauto|].
  destruct i as [|i]; simpl in Hi.
  - congruence.
  - destruct (IH _ Hi) as (l' & -> & Hlen). simpl. eexists; split; [done|].
    simpl. lia.
Qed.

Lemma list_remove_middle K c R :
  ws_id c ∉ ws_id <$> K → list_remove c (K ++ c :: R) = Some (K ++ R).
Proof.
  induction K as [|y K IH]; simpl; intros Hc.
  - by rewrite decide_True.
  - rewrite not_elem_of_cons in Hc. destruct Hc as [Hy HK].
    rewrite decide_False by congruence. by rewrite IH.
Qed.

Lemma world_eq_conns_sends w conns :
  active_connections w = conns →
  set_active_connections (fun _ => conns) (set_send_log (fun l => l ++ []) w) = w.
Proof. destruct w; simpl; intros <-. unfold set_active_connections, set_send_log; simpl. by rewrite app_nil_r. Qed.

(** [broadcast] returns normally and changes nothing but the list of
    connections and the record of sends. *)
Lemma broadcast_from_frame fuel i message w :
  ∃ conns trace,
    broadcast_from fuel i message w =
      (Ok tt, set_active_connections (fun _ => conns)
                (set_send_log (fun l => l ++ trace) w)).
Proof.
  revert i w. induction fuel as [|fuel IH]; intros i w; simpl.
  - exists (active_connections w), []. unfold ret. f_equal.
    symmetry. by eapply world_eq_conns_sends.
  - destruct (active_connections w !! i) as [c|] eqn:Hi.
    + unfold bind, try_except, send_text. destruct (ws_open c) eqn:Hopen.
      * edestruct (IH (S i)) as (conns & trace & ->).
        eexists conns, (_ :: trace). f_equal.
        destruct w; unfold set_active_connections, set_send_log; simpl.
        by rewrite <- app_assoc.
      * unfold remove_connection. simpl.
        destruct (list_remove_lookup _ _ _ Hi) as (l' & -> & _).
        edestruct (IH (S i)) as (conns & trace & ->).
        eexists conns, (_ :: trace). f_equal.
        destruct w; unfold set_active_connections, set_send_log; simpl.
        by rewrite <- app_assoc.
    + exists (active_connections w), []. f_equal.
      symmetry. by eapply world_eq_conns_sends.
Qed.

Lemma broadcast_ok message w :
  broadcast message w = (Ok tt, after_broadcast message w).
Proof.
  unfold after_broadcast, broadcast.
  destruct (broadcast_from_frame (length (active_connections w)) 0 message w)
    as (conns & trace & ->). done.
Qed.

Lemma after_broadcast_frame message w :
  db_bots (after_broadcast message w) = db_bots w ∧
  db_logs (after_broadcast message w) = db_logs w ∧
  clock (after_broadcast message w) = clock w ∧
  uuid_ctr (after_broadcast message w) = uuid_ctr w ∧
  rand (after_broadcast message w) = rand w ∧
  faults (after_broadcast message w) = faults w ∧
  os_environ (after_broadcast message w) = os_environ w ∧
  processes (after_broadcast message w) = processes w.
Proof.
  unfold after_broadcast, broadcast.
  destruct (broadcast_from_frame (length (active_connections w)) 0 message w)
    as (conns & trace & ->). done.
Qed.

Lemma after_broadcast_db_bots message w :
  db_bots (after_broadcast message w) = db_bots w.
Proof. apply after_broadcast_frame. Qed.
Lemma after_broadcast_db_logs message w :
  db_logs (after_broadcast message w) = db_logs w.
Proof. apply after_broadcast_frame. Qed.
Lemma after_broadcast_clock message w :
  clock (after_broadcast message w) = clock w.
Proof. apply after_broadcast_frame. Qed.
Lemma after_broadcast_uuid_ctr message w :
  uuid_ctr (after_broadcast message w) = uuid_ctr w.
Proof. apply after_broadcast_frame. Qed.
Lemma after_broadcast_rand message w :
  rand (after_broadcast message w) = rand w.
Proof. apply after_broadcast_frame. Qed.
Lemma after_broadcast_faults message w :
  faults (after_broadcast message w) = faults w.
Proof. apply after_broadcast_frame. Qed.
Lemma after_broadcast_os_environ message w :
  os_environ (after_broadcast message w) = os_environ w.
Proof. apply after_broadcast_frame. Qed.
Lemma after_broadcast_processes message w :
  processes (after_broadcast message w) = processes w.
Proof. apply after_broadcast_frame. Qed.

Create Rewrite HintDb world.
#[global] Hint Rewrite after_broadcast_db_bots after_broadcast_db_logs
  after_broadcast_clock after_broadcast_uuid_ctr after_broadcast_rand
  after_broadcast_faults after_broadcast_os_environ after_broadcast_processes
  : world.

(** The walk is over after at most as many rounds as the list is long at
    its start: more fuel changes nothing. *)
Lemma broadcast_from_fuel fuel i message w :
  (length (active_connections w) ≤ i + fuel)%nat →
  broadcast_from (S fuel) i message w = broadcast_from fuel i message w.
Proof.
  revert i w. induction fuel as [|fuel IH]; intros i w Hlen.
  - simpl. rewrite lookup_ge_None_2 by lia. done.
  - change (broadcast_from (S (S fuel)) i message w) with
      (match active_connections w !! i with
       | None => (Ok tt, w)
       | Some connection =>
           (try_except (send_text connection message)
                       (fun _ => remove_connection connection) >>
            broadcast_from (S fuel) (S i) message) w
       end).
    change (broadcast_from (S fuel) i message w) with
      (match active_connections w !! i with
       | None => (Ok tt, w)
       | Some connection =>
           (try_except (send_text connection message)
                       (fun _ => remove_connection connection) >>
            broadcast_from fuel (S i) message) w
       end).
    destruct (active_connections w !! i) as [c|] eqn:Hi; [|done].
    unfold bind, try_except, send_text. destruct (ws_open c).
    + apply IH. simpl. lia.
    + unfold remove_connection. simpl.
      destruct (list_remove_lookup _ _ _ Hi) as (l' & -> & Hl').
      apply IH. simpl. lia.
Qed.

Lemma broadcast_fuel_enough n message w :
  broadcast_from (length (active_connections w) + n) 0 message w =
  broadcast message w.
Proof.
  unfold broadcast. induction n as [|n IH].
  - by rewrite Nat.add_0_r.
  - rewrite Nat.add_succ_r, broadcast_from_fuel by lia. exact IH.
Qed.

(** ** The primitives, as equations *)

Lemma store_write_eq w :
  store_write w =
    match next_fault (faults w) with
    | Some msg => (Raise (Exception msg), set_faults (drop 1) w)
    | None => (Ok tt, set_faults (drop 1) w)
    end.
Proof. unfold store_write, next_fault. by destruct (faults w) as [|[msg|] fs]. Qed.

Lemma update_bot_status_eq bot_id status pid w :
  update_bot_status bot_id status pid w =
    match next_fault (faults w) with
    | Some msg => (Raise (Exception msg), set_faults (drop 1) w)
    | None =>
        (Ok tt, set_db_bots
                  (update_one bot_id (apply_set (update_data_of status pid (clock w))))
                  (set_faults (drop 1) w))
    end.
Proof.
  unfold update_bot_status, bind, utcnow. rewrite store_write_eq.
  by destruct (next_fault (faults w)).
Qed.

Lemma log_message_eq bot_id level message source w :
  log_message bot_id level message source w =
    match next_fault (faults w) with
    | Some msg => (Raise (Exception msg), set_faults (drop 1) (set_uuid_ctr S w))
    | None =>
        let e := mkLogEntry (uuid_of (uuid_ctr w)) bot_id (clock w)
                            level message source in
        (Ok tt, after_broadcast (MsgLog e)
                  (set_db_logs (fun l => l ++ [e])
                     (set_faults (drop 1) (set_uuid_ctr S w))))
    end.
Proof.
  unfold log_message, bind, utcnow, uuid4. rewrite store_write_eq. simpl.
  destruct (next_fault (faults w)); [done|]. by rewrite broadcast_ok.
Qed.

Lemma next_fault_no_faults l : Forall (fun f => f = None) l → next_fault l = None.
Proof. by destruct 1. Qed.

Lemma Forall_drop_1 {A} (P : A → Prop) l : Forall P l → Forall P (drop 1 l).
Proof. apply Forall_drop. Qed.

#[global] Arguments next_fault : simpl never.
#[global] Arguments update_bot_status : simpl never.
#[global] Arguments log_message : simpl never.
#[global] Arguments broadcast : simpl never.
#[global] Arguments after_broadcast : simpl never.
#[global] Arguments uuid_of : simpl never.
#[global] Arguments update_data_of : simpl never.
#[global] Arguments apply_set : simpl never.
#[global] Arguments str_in : simpl never.
#[global] Arguments next_rand : simpl never.

(** One step of symbolic execution of a coroutine. *)
Ltac run_step :=
  first
    [ rewrite update_bot_status_eq
    | rewrite log_message_eq
    | rewrite store_write_eq
    | progress autorewrite with world
    | progress
        (unfold bind, try_except, try_except_http, ret, raise, get_bot_by_id,
                build_env, randint, sleep, utcnow)
    | progress simpl ].

Ltac run := repeat run_step.

(** Case analysis on the truth value of [bot.pid]. *)
Ltac on_pid :=
  match goal with
  | |- context [truthy ?p] => destruct (truthy p) eqn:?
  end.

(** Case analysis on the next entry of the fault schedule. *)
Ltac on_fault :=
  match goal with
  | |- context [next_fault ?l] => destruct (next_fault l) eqn:?
  end.

(** The next store write succeeds, by the hypothesis that none fails. *)
Ltac no_fault H :=
  rewrite (next_fault_no_faults _) by (repeat apply Forall_drop_1; exact H).

(** Run a coroutine to its end, along every outcome of its store writes. *)
Ltac run_all := repeat (run; try on_fault; try on_pid).

(** ** The checks in front of the lifecycle endpoints *)

Lemma stop_bot_unknown bid w :
  find_one bid (db_bots w) = None →
  stop_bot bid w = (Raise (HTTPException 404 "Bot not found"), w).
Proof. intros Hfind. unfold stop_bot, bind, get_bot_by_id. by rewrite Hfind. Qed.

Lemma stop_bot_refused bid w bot :
  find_one bid (db_bots w) = Some bot → status bot ≠ RUNNING →
  stop_bot bid w = (Raise (HTTPException 400 "Bot is not running"), w).
Proof.
  intros Hfind Hst. unfold stop_bot, bind, get_bot_by_id. rewrite Hfind.
  by rewrite bool_decide_false.
Qed.

Lemma start_bot_unknown bid w :
  find_one bid (db_bots w) = None →
  start_bot bid w = (Raise (HTTPException 404 "Bot not found"), w).
Proof. intros Hfind. unfold start_bot, bind, get_bot_by_id. by rewrite Hfind. Qed.

Lemma start_bot_refused bid w bot :
  find_one bid (db_bots w) = Some bot → status bot = RUNNING →
  start_bot bid w = (Raise (HTTPException 400 "Bot is already running"), w).
Proof.
  intros Hfind Hst. unfold start_bot, bind, get_bot_by_id. rewrite Hfind.
  by rewrite bool_decide_true.
Qed.

(** ** Stopping a bot that is not running *)

(** C7: on an existing bot whose status is not Running, [stop_bot] raises
    the 400 error "Bot is not running" and leaves the whole world as it
    was: the record with its status, pid and timestamps, the log store,
    and no message is sent. *)
Theorem stop_bot_not_running (bot_id : string) (w : World) (bot : Bot) :
  find_one bot_id (db_bots w) = Some bot →
  status bot ≠ RUNNING →
  stop_bot bot_id w = (Raise (HTTPException 400 "Bot is not running"), w).
Proof.
  intros Hfind Hst. by eapply stop_bot_refused.
Qed.

Ltac proj := repeat first [progress simpl | progress autorewrite with world].

Lemma find_one_update_one_eq i u docs :
  find_one i (update_one i (apply_set u) docs) = apply_set u <$> find_one i docs.
Proof. rewrite find_one_update_one by done. by rewrite decide_True. Qed.

Lemma find_one_update_one_ne i j u docs :
  i ≠ j → find_one i (update_one j (apply_set u) docs) = find_one i docs.
Proof. intros. rewrite find_one_update_one by done. by rewrite decide_False. Qed.

(** ** Stopping a running bot *)

(** What a [stop_bot] that returns has done. *)
Lemma stop_bot_ok_inv bot_id w r w' :
  stop_bot bot_id w = (Ok r, w') →
  ∃ bot,
    find_one bot_id (db_bots w) = Some bot ∧ status bot = RUNNING ∧
    r = Reply_message "Bot stopped successfully" ∧
    db_bots w' =
      update_one bot_id (apply_set (update_data_of STOPPED None (clock w)))
        (update_one bot_id (apply_set (update_data_of STOPPING None (clock w)))
           (db_bots w)) ∧
    db_logs w' =
      db_logs w ++
        [mkLogEntry (uuid_of (uuid_ctr w)) bot_id (clock w) "INFO"
           ("Stopping bot '" +:+ name bot +:+ "'") "api";
         mkLogEntry (uuid_of (S (uuid_ctr w))) bot_id (clock w) "INFO"
           ("Bot '" +:+ name bot +:+ "' stopped successfully") "system"] ∧
    clock w' = clock w ∧ uuid_ctr w' = S (S (uuid_ctr w)) ∧
    rand w' = rand w ∧ faults w' = drop 4 (faults w) ∧
    os_environ w' = os_environ w ∧ processes w' = processes w.
Proof.
  unfold stop_bot. unfold bind at 1. unfold get_bot_by_id.
  destruct (find_one bot_id (db_bots w)) as [bot|] eqn:Hfind; [|done].
  destruct (bool_decide (status bot = RUNNING)) eqn:Hst; simpl; [|done].
  apply bool_decide_eq_true in Hst.
  run_all; try discriminate;
    intros [= <- <-]; exists bot; proj;
    rewrite <- app_assoc, !drop_drop; done.
Qed.

(** When no store write fails, [stop_bot] on a running bot returns. *)
Lemma stop_bot_returns bot_id w bot :
  no_faults w →
  find_one bot_id (db_bots w) = Some bot → status bot = RUNNING →
  ∃ w', stop_bot bot_id w = (Ok (Reply_message "Bot stopped successfully"), w') ∧
        no_faults w'.
Proof.
  intros Hnf Hfind Hst. unfold no_faults in Hnf.
  unfold stop_bot. unfold bind at 1. unfold get_bot_by_id. rewrite Hfind.
  rewrite bool_decide_true by done. simpl.
  run. no_fault Hnf. run. no_fault Hnf. run. on_pid; run;
    no_fault Hnf; run; no_fault Hnf; run;
    (eexists; split; [reflexivity|]); unfold no_faults; proj;
    repeat apply Forall_drop_1; done.
Qed.

(** C4: on a bot whose status is Running, a [stop_bot] that returns leaves
    the record with status Stopped, no pid, and the time of the call as
    its [last_stopped]; and it does return when no store write fails. *)
Theorem stop_bot_running (bot_id : string) (w : World) (bot : Bot) :
  find_one bot_id (db_bots w) = Some bot →
  status bot = RUNNING →
  (no_faults w → ∃ w', stop_bot bot_id w =
                         (Ok (Reply_message "Bot stopped successfully"), w')) ∧
  (∀ r w', stop_bot bot_id w = (Ok r, w') →
     ∃ bot', find_one bot_id (db_bots w') = Some bot' ∧
             status bot' = STOPPED ∧ pid bot' = None ∧
             last_stopped bot' = Some (clock w)).
Proof.
  intros Hfind Hst. split.
  - intros Hnf. destruct (stop_bot_returns _ _ _ Hnf Hfind Hst) as (w' & H & _).
    eauto.
  - intros r w' Hstop.
    destruct (stop_bot_ok_inv _ _ _ _ Hstop) as (b & Hb & _ & _ & Hbots & _).
    rewrite Hbots, !find_one_update_one_eq, Hb. simpl.
    eexists; split; [reflexivity|]. done.
Qed.

(** ** Starting a bot *)


(** What a [start_bot] that returns has done. *)
Lemma start_bot_ok_inv bot_id w r w' :
  start_bot bot_id w = (Ok r, w') →
  ∃ bot,
    find_one bot_id (db_bots w) = Some bot ∧ status bot ≠ RUNNING ∧
    r = Reply_message_pid "Bot started successfully" (fake_pid_of w) ∧
    db_bots w' =
      update_one bot_id
        (apply_set (update_data_of RUNNING (Some (fake_pid_of w)) (clock w)))
        (update_one bot_id (apply_set (update_data_of STARTING None (clock w)))
           (db_bots w)) ∧
    db_logs w' =
      db_logs w ++
        [mkLogEntry (uuid_of (uuid_ctr w)) bot_id (clock w) "INFO"
           ("Starting bot '" +:+ name bot +:+ "'") "api";
         mkLogEntry (uuid_of (S (uuid_ctr w))) bot_id (clock w) "INFO"
           ("Bot '" +:+ name bot +:+ "' started successfully with PID "
            +:+ pretty (fake_pid_of w)) "system"] ∧
    clock w' = clock w ∧ uuid_ctr w' = S (S (uuid_ctr w)) ∧
    rand w' = drop 1 (rand w) ∧ faults w' = drop 4 (faults w) ∧
    os_environ w' = os_environ w ∧ processes w' = processes w.
Proof.
  unfold start_bot. unfold bind at 1. unfold get_bot_by_id.
  destruct (find_one bot_id (db_bots w)) as [bot|] eqn:Hfind; [|done].
  destruct (bool_decide (status bot = RUNNING)) eqn:Hst; simpl; [done|].
  apply bool_decide_eq_false in Hst.
  run_all; try discriminate;
    intros [= <- <-]; exists bot; proj;
    rewrite <- app_assoc, !drop_drop; done.
Qed.

(** When no store write fails, [start_bot] on a bot that is not running
    returns. *)
Lemma start_bot_returns bot_id w bot :
  no_faults w →
  find_one bot_id (db_bots w) = Some bot → status bot ≠ RUNNING →
  ∃ w', start_bot bot_id w =
          (Ok (Reply_message_pid "Bot started successfully" (fake_pid_of w)), w') ∧
        no_faults w'.
Proof.
  intros Hnf Hfind Hst. unfold no_faults in Hnf.
  unfold start_bot. unfold bind at 1. unfold get_bot_by_id. rewrite Hfind.
  rewrite bool_decide_false by done. simpl.
  run. no_fault Hnf. run. no_fault Hnf. run. no_fault Hnf; run; no_fault Hnf; run.
  (eexists; split; [reflexivity|]); unfold no_faults; proj;
    repeat apply Forall_drop_1; done.
Qed.

Lemma fake_pid_of_range w : (1000 ≤ fake_pid_of w ≤ 9999)%Z.
Proof.
  unfold fake_pid_of.
  pose proof (Z.mod_pos_bound (next_rand (rand w)) (9999 - 1000 + 1)). lia.
Qed.

(** Witness of [stop_bot_not_running]: the freshly created bot of
    [demo_world] is Stopped. *)
Lemma stop_bot_not_running_witness :
  find_one "b1" (db_bots demo_world) = Some demo_bot ∧
  status demo_bot ≠ RUNNING ∧
  stop_bot "b1" demo_world =
    (Raise (HTTPException 400 "Bot is not running"), demo_world).
Proof.
  split; [reflexivity|]. split; [discriminate|].
  apply (stop_bot_not_running "b1" demo_world demo_bot); [reflexivity|discriminate].
Defined.

(** Witness of [stop_bot_running], on the started bot of [demo_started]. *)
Lemma stop_bot_running_witness :
  (∃ w', stop_bot "b1" demo_started =
           (Ok (Reply_message "Bot stopped successfully"), w')) ∧
  (∀ r w', stop_bot "b1" demo_started = (Ok r, w') →
     ∃ bot', find_one "b1" (db_bots w') = Some bot' ∧
             status bot' = STOPPED ∧ pid bot' = None ∧
             last_stopped bot' = Some (clock demo_started)).
Proof.
  destruct (stop_bot_running "b1" demo_started
              (with_status
                 (apply_set (update_data_of RUNNING (Some 5242) 100) demo_bot)
                 RUNNING))
    as [Hret Hpost]; [reflexivity|reflexivity|].
  split; [|exact Hpost].
  apply Hret. constructor.
Defined.

(** C2, as the code has it: [start_bot] raises the 404 error when no
    record has the identifier and the 400 error "Bot is already running"
    when the record's status is Running, both without touching the world.
    In every other status, Starting included, it goes on past these two
    checks: whatever the store does, its result is never one of them, and
    when no store write fails it returns the pid it drew and leaves the
    record Running. *)
Theorem start_bot_guards (bot_id : string) (w : World) :
  (find_one bot_id (db_bots w) = None →
   start_bot bot_id w = (Raise (HTTPException 404 "Bot not found"), w)) ∧
  (∀ bot, find_one bot_id (db_bots w) = Some bot → status bot = RUNNING →
   start_bot bot_id w = (Raise (HTTPException 400 "Bot is already running"), w)) ∧
  (∀ bot, find_one bot_id (db_bots w) = Some bot → status bot ≠ RUNNING →
     (∀ c d w', start_bot bot_id w = (Raise (HTTPException c d), w') → c = 500) ∧
     (no_faults w →
      ∃ w', start_bot bot_id w =
              (Ok (Reply_message_pid "Bot started successfully" (fake_pid_of w)), w') ∧
            status <$> find_one bot_id (db_bots w') = Some RUNNING)).
Proof.
  split; [|split].
  - apply start_bot_unknown.
  - intros bot. apply start_bot_refused.
  - intros bot Hfind Hst. split.
    + intros c d w'. unfold start_bot. unfold bind at 1. unfold get_bot_by_id.
      rewrite Hfind, bool_decide_false by done.
      run_all; intros [= <- <- <-]; done.
    + intros Hnf.
      destruct (start_bot_returns _ _ _ Hnf Hfind Hst) as (w' & Hstart & _).
      exists w'. split; [done|].
      destruct (start_bot_ok_inv _ _ _ _ Hstart) as (b & Hb & _ & _ & -> & _).
      by rewrite !find_one_update_one_eq, Hb.
Qed.

(** Witness of [start_bot_guards], on the freshly created bot. *)
Lemma start_bot_guards_witness :
  (∀ c d w', start_bot "b1" demo_world = (Raise (HTTPException c d), w') → c = 500) ∧
  ∃ w', start_bot "b1" demo_world =
          (Ok (Reply_message_pid "Bot started successfully" 5242), w') ∧
        status <$> find_one "b1" (db_bots w') = Some RUNNING.
Proof.
  destruct (start_bot_guards "b1" demo_world) as (_ & _ & H).
  destruct (H demo_bot) as [Hnever Hret]; [reflexivity|discriminate|].
  split; [exact Hnever|]. apply Hret. constructor.
Defined.

(** C2 fails as stated: a first [start_bot] whose log write and whose
    error-state write both fail leaves the record Starting; a second
    [start_bot] on that record is not refused, it starts the bot. *)
Lemma start_bot_starting_counterexample :
  let w1 := snd (start_bot "b1" demo_flaky) in
  status <$> find_one "b1" (db_bots w1) = Some STARTING ∧
  fst (start_bot "b1" w1) = Ok (Reply_message_pid "Bot started successfully" 5242).
Proof. vm_compute. split; reflexivity. Qed.

(** C3, as the code has it: a [start_bot] that returns has set the status
    to Starting, built the environment (the inherited variables overridden
    by the record's), drawn a number between 1000 and 9999 from the random
    generator in place of a process identifier, spawned nothing (the
    operating system's table is as before), then set the record to Running
    with that number as its pid and the time of the call as
    [last_started], and written two info logs. *)
Theorem start_bot_success (bot_id : string) (w : World) (r : Reply) (w' : World) :
  start_bot bot_id w = (Ok r, w') →
  ∃ bot w1,
    find_one bot_id (db_bots w) = Some bot ∧
    update_bot_status bot_id STARTING None w = (Ok tt, w1) ∧
    status <$> find_one bot_id (db_bots w1) = Some STARTING ∧
    (∃ env, fst (build_env bot w1) = Ok env ∧
       ∀ k, env !! k = match environment_vars bot !! k with
                       | Some v => Some v
                       | None => os_environ w !! k
                       end) ∧
    r = Reply_message_pid "Bot started successfully" (fake_pid_of w) ∧
    (1000 ≤ fake_pid_of w ≤ 9999)%Z ∧
    processes w' = processes w ∧
    find_one bot_id (db_bots w') =
      Some (mkBot (id bot) (name bot) (description bot) (bot_type bot) RUNNING
                  (port bot) (command bot) (working_directory bot)
                  (environment_vars bot) (Some (fake_pid_of w)) (created_at bot)
                  (Some (clock w)) (last_stopped bot)
                  (cpu_usage bot) (memory_usage bot) (uptime bot)) ∧
    db_logs w' =
      db_logs w ++
        [mkLogEntry (uuid_of (uuid_ctr w)) bot_id (clock w) "INFO"
           ("Starting bot '" +:+ name bot +:+ "'") "api";
         mkLogEntry (uuid_of (S (uuid_ctr w))) bot_id (clock w) "INFO"
           ("Bot '" +:+ name bot +:+ "' started successfully with PID "
            +:+ pretty (fake_pid_of w)) "system"].
Proof.
  intros Hstart.
  destruct (start_bot_ok_inv _ _ _ _ Hstart)
    as (bot & Hfind & Hst & -> & Hbots & Hlogs & _ & _ & _ & Hf & _ & Hprocs).
  assert (Hnext : next_fault (faults w) = None).
  { revert Hstart. unfold start_bot. unfold bind at 1. unfold get_bot_by_id.
    rewrite Hfind, bool_decide_false by done.
    run_all; try discriminate; done. }
  exists bot. eexists. split; [done|]. split.
  { rewrite update_bot_status_eq, Hnext. reflexivity. }
  split.
  { simpl. by rewrite find_one_update_one_eq, Hfind. }
  split.
  { eexists. split; [reflexivity|]. intros k. simpl.
    rewrite lookup_union. 
    destruct (environment_vars bot !! k), (os_environ w !! k); done. }
  split; [done|]. split; [apply fake_pid_of_range|]. split; [done|].
  split; [|done].
  rewrite Hbots, !find_one_update_one_eq, Hfind. reflexivity.
Qed.

(** Witness of [start_bot_success], on the freshly created bot. *)
Lemma start_bot_success_witness :
  ∃ bot w1,
    find_one "b1" (db_bots demo_world) = Some bot ∧
    update_bot_status "b1" STARTING None demo_world = (Ok tt, w1) ∧
    status <$> find_one "b1" (db_bots w1) = Some STARTING ∧
    (∃ env, fst (build_env bot w1) = Ok env ∧
       ∀ k, env !! k = match environment_vars bot !! k with
                       | Some v => Some v
                       | None => os_environ demo_world !! k
                       end) ∧
    Reply_message_pid "Bot started successfully" 5242 =
      Reply_message_pid "Bot started successfully" (fake_pid_of demo_world) ∧
    (1000 ≤ fake_pid_of demo_world ≤ 9999)%Z ∧
    processes demo_started = processes demo_world ∧
    find_one "b1" (db_bots demo_started) =
      Some (mkBot (id bot) (name bot) (description bot) (bot_type bot) RUNNING
                  (port bot) (command bot) (working_directory bot)
                  (environment_vars bot) (Some (fake_pid_of demo_world))
                  (created_at bot) (Some (clock demo_world)) (last_stopped bot)
                  (cpu_usage bot) (memory_usage bot) (uptime bot)) ∧
    db_logs demo_started =
      db_logs demo_world ++
        [mkLogEntry (uuid_of (uuid_ctr demo_world)) "b1" (clock demo_world) "INFO"
           ("Starting bot '" +:+ name bot +:+ "'") "api";
         mkLogEntry (uuid_of (S (uuid_ctr demo_world))) "b1" (clock demo_world) "INFO"
           ("Bot '" +:+ name bot +:+ "' started successfully with PID "
            +:+ pretty (fake_pid_of demo_world)) "system"].
Proof.
  apply (start_bot_success "b1" demo_world
           (Reply_message_pid "Bot started successfully" 5242) demo_started).
  vm_compute. reflexivity.
Defined.

(** C3 fails as stated: after a successful [start_bot] in a world without
    any process, the record is Running with pid 5242, yet no process was
    spawned: the table is still empty, no process has that pid, and the
    next listing of the bots finds the process missing and puts the record
    back to Stopped. *)
Lemma start_bot_spawns_nothing_counterexample :
  fst (start_bot "b1" demo_world) =
    Ok (Reply_message_pid "Bot started successfully" 5242) ∧
  pid <$> find_one "b1" (db_bots demo_started) = Some (Some 5242) ∧
  processes demo_world = ∅ ∧
  processes demo_started = ∅ ∧
  fst (get_process_stats 5242 demo_started) = Ok None ∧
  status <$> find_one "b1" (db_bots (snd (get_bots demo_started))) = Some STOPPED.
Proof. vm_compute. repeat split; reflexivity. Qed.

(** ** Restarting a bot *)

#[global] Arguments stop_bot : simpl never.
#[global] Arguments start_bot : simpl never.

(** C5, as the code has it.  [restart_bot] runs [stop_bot], pauses, and
    runs [start_bot].  It tells the failures of [stop_bot] apart by the
    text of their detail: on an HTTP error whose detail contains
    "not running" it goes on to [start_bot] in the world [stop_bot] left,
    so on a bot that is not Running it is [start_bot] itself, result and
    world; every other failure (the 404 of an unknown bot, a 500 whose
    detail lacks those words, an exception of the store) is raised again
    as it is, in the world [stop_bot] left, without [start_bot] being
    run.  When [stop_bot] returns, the result is the one of [start_bot]
    one second later, unless that result is itself an HTTP error with
    those words. *)
Theorem restart_bot_cases (bot_id : string) (w : World) :
  (∀ bot, find_one bot_id (db_bots w) = Some bot → status bot ≠ RUNNING →
     restart_bot bot_id w = start_bot bot_id w) ∧
  (find_one bot_id (db_bots w) = None →
     restart_bot bot_id w = (Raise (HTTPException 404 "Bot not found"), w)) ∧
  (∀ e w1, stop_bot bot_id w = (Raise e, w1) →
     (∀ c d, e = HTTPException c d → str_in "not running" d = false) →
     restart_bot bot_id w = (Raise e, w1)) ∧
  (∀ c d w1, stop_bot bot_id w = (Raise (HTTPException c d), w1) →
     str_in "not running" d = true →
     restart_bot bot_id w = start_bot bot_id w1) ∧
  (∀ r w1 res w2, stop_bot bot_id w = (Ok r, w1) →
     start_bot bot_id (set_clock (Z.add 1) w1) = (res, w2) →
     (∀ c d, res = Raise (HTTPException c d) → str_in "not running" d = false) →
     restart_bot bot_id w = (res, w2)).
Proof.
  split; [|split; [|split; [|split]]].
  - intros bot Hfind Hst. unfold restart_bot, try_except_http, bind.
    by rewrite (stop_bot_refused _ _ _ Hfind Hst).
  - intros Hfind. unfold restart_bot, try_except_http, bind.
    by rewrite (stop_bot_unknown _ _ Hfind).
  - intros e w1 Hstop He. unfold restart_bot, try_except_http, bind.
    rewrite Hstop. destruct e as [c d| |]; try done.
    by rewrite (He c d eq_refl).
  - intros c d w1 Hstop Hd. unfold restart_bot, try_except_http, bind.
    by rewrite Hstop, Hd.
  - intros r w1 res w2 Hstop Hstart Hres.
    unfold restart_bot, try_except_http, bind, sleep. rewrite Hstop, Hstart.
    destruct res as [a|[c d| |]]; try done.
    by rewrite (Hres c d eq_refl).
Qed.

(** Witness of [restart_bot_cases]: restarting the freshly created,
    Stopped bot is starting it. *)
Lemma restart_bot_cases_witness :
  restart_bot "b1" demo_world = start_bot "b1" demo_world.
Proof.
  destruct (restart_bot_cases "b1" demo_world) as (H & _).
  apply (H demo_bot); [reflexivity|discriminate].
Defined.

(** C5 fails as stated: [stop_bot] on a running bot fails with a 500 (the
    store refused the first write), not because the bot is not running;
    the text of the store's error contains "not running", so [restart_bot]
    does not propagate the failure: it runs [start_bot] and returns its
    reply. *)
Lemma restart_bot_counterexample :
  status <$> find_one "b1" (db_bots demo_outage) = Some RUNNING ∧
  fst (stop_bot "b1" demo_outage) =
    Raise (HTTPException 500
             "Failed to stop bot: replica set member is not running") ∧
  fst (restart_bot "b1" demo_outage) =
    Ok (Reply_message_pid "Bot started successfully" 1000).
Proof. vm_compute. repeat split; reflexivity. Qed.

(** ** Deleting a bot *)

Lemma filter_delete_many i (docs : list LogEntry) :
  filter (fun e => bot_id e = i) (delete_many i docs) = [].
Proof.
  unfold delete_many. induction docs as [|e docs IH]; [done|].
  rewrite (filter_cons (fun e => bot_id e ≠ i)).
  destruct (decide (bot_id e ≠ i)) as [Hne|Heq]; [|done].
  rewrite filter_cons. by rewrite decide_False.
Qed.

(** What a [delete_bot] that returns has done. *)
Lemma delete_bot_ok_inv bid w r w' :
  delete_bot bid w = (Ok r, w') →
  ∃ bot logs e,
    find_one bid (db_bots w) = Some bot ∧
    db_bots w' = delete_one bid (db_bots w) ∧
    db_logs w' = delete_many bid logs ++ [e] ∧
    bot_id e = bid ∧ level e = "INFO" ∧
    message e = "Bot '" +:+ name bot +:+ "' deleted" ∧ source e = "api".
Proof.
  unfold delete_bot. unfold bind at 1. unfold get_bot_by_id.
  destruct (find_one bid (db_bots w)) as [bot|] eqn:Hfind; [|done].
  unfold bind at 1.
  destruct (bool_decide (status bot = RUNNING)) eqn:Hst.
  - unfold bind at 1. destruct (stop_bot bid w) as [[r1|e1] w1] eqn:Hstop; [|done].
    destruct (stop_bot_ok_inv _ _ _ _ Hstop)
      as (b & Hb & _ & _ & Hbots & Hlogs & _).
    run_all; try discriminate.
    intros [= <- <-]. exists bot. eexists. eexists. proj.
    split; [done|]. split.
    { rewrite Hbots. by rewrite !delete_one_update_one. }
    split; [reflexivity|]. done.
  - run_all; try discriminate.
    intros [= <- <-]. exists bot. eexists. eexists. proj.
    split; [done|]. split; [done|]. split; [reflexivity|]. done.
Qed.

(** When no store write fails, [delete_bot] on an existing bot returns. *)
Lemma delete_bot_returns bid w bot :
  no_faults w → find_one bid (db_bots w) = Some bot →
  ∃ w', delete_bot bid w = (Ok (Reply_message "Bot deleted successfully"), w') ∧
        no_faults w'.
Proof.
  intros Hnf Hfind.
  unfold delete_bot. unfold bind at 1. unfold get_bot_by_id. rewrite Hfind.
  unfold bind at 1.
  destruct (bool_decide (status bot = RUNNING)) eqn:Hst.
  - apply bool_decide_eq_true in Hst.
    destruct (stop_bot_returns _ _ _ Hnf Hfind Hst) as (w1 & Hstop & Hnf1).
    unfold bind at 1. rewrite Hstop. unfold no_faults in Hnf1.
    run. no_fault Hnf1. run. no_fault Hnf1. run. no_fault Hnf1. run.
    eexists. split; [reflexivity|]. unfold no_faults. proj.
    by repeat apply Forall_drop_1.
  - unfold no_faults in Hnf.
    run. no_fault Hnf. run. no_fault Hnf. run. no_fault Hnf. run.
    eexists. split; [reflexivity|]. unfold no_faults. proj.
    by repeat apply Forall_drop_1.
Qed.

(** C10: a [delete_bot] that returns has removed the record it found (the
    first one with the identifier) and every log entry of that identifier,
    and has then written the info entry of the deletion under the same
    identifier: that entry, the last of the log store, is the one and only
    entry of the identifier in it.  It does return, on an existing bot,
    when no store write fails. *)
Theorem delete_bot_leaves_one_log (bid : string) (w : World) :
  (∀ bot, no_faults w → find_one bid (db_bots w) = Some bot →
     ∃ w', delete_bot bid w =
             (Ok (Reply_message "Bot deleted successfully"), w')) ∧
  (∀ r w', delete_bot bid w = (Ok r, w') →
     ∃ bot e,
       find_one bid (db_bots w) = Some bot ∧
       db_bots w' = delete_one bid (db_bots w) ∧
       filter (fun e => bot_id e = bid) (db_logs w') = [e] ∧
       last (db_logs w') = Some e ∧
       bot_id e = bid ∧ level e = "INFO" ∧
       message e = "Bot '" +:+ name bot +:+ "' deleted" ∧
       source e = "api").
Proof.
  split.
  - intros bot Hnf Hfind.
    destruct (delete_bot_returns _ _ _ Hnf Hfind) as (w' & Hdel & _). eauto.
  - intros r w' Hdel.
    destruct (delete_bot_ok_inv _ _ _ _ Hdel)
      as (bot & logs & e & Hfind & Hbots & Hlogs & Hid & Hrest).
    exists bot, e. split; [done|]. split; [done|]. split.
    { rewrite Hlogs, filter_app, filter_delete_many. simpl.
      rewrite filter_cons, decide_True by done. done. }
    split; [|done]. rewrite Hlogs. apply last_snoc.
Qed.

(** Witness of [delete_bot_leaves_one_log], on the started bot, whose two
    start entries are in the log store. *)
Lemma delete_bot_leaves_one_log_witness :
  length (filter (fun e => bot_id e = "b1") (db_logs demo_started)) = 2%nat ∧
  (∃ w', delete_bot "b1" demo_started =
           (Ok (Reply_message "Bot deleted successfully"), w')) ∧
  (∀ r w', delete_bot "b1" demo_started = (Ok r, w') →
     ∃ bot e,
       find_one "b1" (db_bots demo_started) = Some bot ∧
       db_bots w' = delete_one "b1" (db_bots demo_started) ∧
       filter (fun e => bot_id e = "b1") (db_logs w') = [e] ∧
       last (db_logs w') = Some e ∧
       bot_id e = "b1" ∧ level e = "INFO" ∧
       message e = "Bot '" +:+ name bot +:+ "' deleted" ∧
       source e = "api").
Proof.
  split; [vm_compute; reflexivity|].
  destruct (delete_bot_leaves_one_log "b1" demo_started) as [Hret Hpost].
  split; [|exact Hpost].
  eapply Hret; [constructor|vm_compute; reflexivity].
Defined.

(** ** Reconciliation: the listing and the periodic pass *)

#[global] Arguments stopped_at : simpl never.

Lemma stopped_at_update t docs i j :
  stopped_at t docs i →
  stopped_at t (update_one j (apply_set (update_data_of STOPPED None t)) docs) i.
Proof.
  intros (b & Hb & Hst & Hpid & Hls). unfold stopped_at.
  destruct (decide (i = j)) as [->|Hij].
  - rewrite find_one_update_one_eq, Hb. simpl. eexists; split; [done|]. done.
  - rewrite find_one_update_one_ne by done. eauto.
Qed.

Lemma stopped_at_intro t docs i :
  is_Some (find_one i docs) →
  stopped_at t (update_one i (apply_set (update_data_of STOPPED None t)) docs) i.
Proof.
  intros [b Hb]. unfold stopped_at. rewrite find_one_update_one_eq, Hb. simpl.
  eexists; split; [done|]. done.
Qed.

Lemma is_Some_find_one_update_one i j u docs :
  is_Some (find_one i docs) →
  is_Some (find_one i (update_one j (apply_set u) docs)).
Proof.
  intros [b Hb]. destruct (decide (i = j)) as [->|Hij].
  - rewrite find_one_update_one_eq, Hb. simpl. eauto.
  - rewrite find_one_update_one_ne by done. eauto.
Qed.

#[global] Arguments vanished : simpl never.

Lemma quiet_pass_refl w : no_faults w → quiet_pass w w.
Proof. intros. unfold quiet_pass. naive_solver. Qed.

Lemma quiet_pass_trans w1 w2 w3 :
  quiet_pass w1 w2 → quiet_pass w2 w3 → quiet_pass w1 w3.
Proof.
  unfold quiet_pass.
  intros (Hl1 & Hs1 & Ha1 & Hc1 & Hp1 & Hn1 & Hf1 & Hk1 & Hr1)
         (Hl2 & Hs2 & Ha2 & Hc2 & Hp2 & Hn2 & Hf2 & Hk2 & Hr2).
  rewrite Hc1 in Hk2.
  repeat split; try congruence; auto.
Qed.

Lemma Forall_settled_stopped i t docs :
  Forall settled docs →
  Forall settled (update_one i (apply_set (update_data_of STOPPED None t)) docs).
Proof.
  intros Hdocs. apply Forall_update_one; [done|]. intros b _ _. by left.
Qed.

(** The statistics block on one bot, when no store write fails. *)
Lemma refresh_stats_quiet bot w :
  no_faults w →
  ∃ bot' w', refresh_stats bot w = (Ok bot', w') ∧ quiet_pass w w' ∧
    (vanished w bot → is_Some (find_one (id bot) (db_bots w)) →
     stopped_at (clock w) (db_bots w') (id bot)).
Proof.
  intros Hnf. unfold refresh_stats.
  destruct (bool_decide (status bot = RUNNING)) eqn:Hst; simpl.
  - destruct (pid bot) as [p|] eqn:Hpid; simpl.
    + destruct (Z.eqb p 0) eqn:Hp0; simpl.
      * eexists _, _. split; [reflexivity|]. split; [by apply quiet_pass_refl|].
        intros (_ & p' & Hp' & Hne & _). apply Z.eqb_eq in Hp0. congruence.
      * unfold bind at 1. unfold get_process_stats.
        destruct (processes w !! p) as [proc|] eqn:Hproc; simpl.
        -- eexists _, _. split; [reflexivity|]. split; [by apply quiet_pass_refl|].
           intros (_ & p' & Hp' & _ & Hnone). congruence.
        -- unfold no_faults in Hnf. run. no_fault Hnf. run.
           eexists _, _. split; [reflexivity|]. split.
           ++ unfold quiet_pass, no_faults. proj.
              repeat split; try done.
              ** by apply Forall_drop_1.
              ** intros i. apply is_Some_find_one_update_one.
              ** intros i. apply stopped_at_update.
              ** apply Forall_settled_stopped.
           ++ intros _ Hsome. by apply stopped_at_intro.
    + eexists _, _. split; [reflexivity|]. split; [by apply quiet_pass_refl|].
      intros (_ & p' & Hp' & _). congruence.
  - eexists _, _. split; [reflexivity|]. split; [by apply quiet_pass_refl|].
    intros (Hrun & _). apply bool_decide_eq_false in Hst. done.
Qed.

Lemma vanished_quiet w w' bot : quiet_pass w w' → vanished w bot → vanished w' bot.
Proof.
  intros (_ & _ & _ & _ & Hp & _) (Hst & p & Hpid & Hne & Hnone).
  split; [done|]. exists p. by rewrite Hp.
Qed.

(** The loop of [get_bots] over a snapshot, when no store write fails. *)
Lemma get_bots_loop_quiet bots w :
  no_faults w →
  ∃ bots' w', get_bots_loop bots w = (Ok bots', w') ∧ quiet_pass w w' ∧
    (∀ bot, bot ∈ bots → vanished w bot →
       is_Some (find_one (id bot) (db_bots w)) →
       stopped_at (clock w) (db_bots w') (id bot)).
Proof.
  revert w. induction bots as [|bot rest IH]; intros w Hnf; simpl.
  - eexists _, _. split; [reflexivity|]. split; [by apply quiet_pass_refl|].
    intros bot Hin. by apply elem_of_nil in Hin.
  - destruct (refresh_stats_quiet bot w Hnf) as (bot' & w1 & Hstep & Hq1 & Hdead1).
    assert (Hnf1 : no_faults w1) by apply Hq1.
    destruct (IH w1 Hnf1) as (rest' & w2 & Hloop & Hq2 & Hdead2).
    unfold bind. rewrite Hstep, Hloop. simpl.
    eexists _, _. split; [reflexivity|].
    split; [by eapply quiet_pass_trans|].
    intros b Hin Hvan Hsome.
    assert (Hclock : clock w1 = clock w) by apply Hq1.
    apply elem_of_cons in Hin as [->|Hin].
    + destruct Hq2 as (_ & _ & _ & _ & _ & _ & _ & Hkeep & _).
      rewrite Hclock in Hkeep. apply Hkeep. by apply Hdead1.
    + rewrite <- Hclock. apply Hdead2; [done| by eapply vanished_quiet |].
      destruct Hq1 as (_ & _ & _ & _ & _ & _ & Hfound & _). by apply Hfound.
Qed.

(** The loop of the periodic pass over the running bots, when no store
    write fails. *)
Lemma running_bots_loop_quiet bots acc w :
  no_faults w →
  ∃ acc' w', running_bots_loop bots acc w = (Ok acc', w') ∧ quiet_pass w w' ∧
    (∀ bot, bot ∈ bots → vanished w bot →
       is_Some (find_one (id bot) (db_bots w)) →
       stopped_at (clock w) (db_bots w') (id bot)).
Proof.
  revert acc w. induction bots as [|bot rest IH]; intros acc w Hnf; simpl.
  - eexists _, _. split; [reflexivity|]. split; [by apply quiet_pass_refl|].
    intros bot Hin. by apply elem_of_nil in Hin.
  - assert (Hskip : ∀ acc1,
        ¬ vanished w bot →
        ∃ acc' w', running_bots_loop rest acc1 w = (Ok acc', w') ∧ quiet_pass w w' ∧
          (∀ b, b ∈ bot :: rest → vanished w b →
             is_Some (find_one (id b) (db_bots w)) →
             stopped_at (clock w) (db_bots w') (id b))).
    { intros acc1 Hnot. destruct (IH acc1 w Hnf) as (acc' & w' & Hloop & Hq & Hdead).
      eexists _, _. split; [exact Hloop|]. split; [done|].
      intros b Hin Hvan. apply elem_of_cons in Hin as [->|Hin]; [done|].
      by apply Hdead. }
    destruct (pid bot) as [p|] eqn:Hpid; simpl.
    + destruct (Z.eqb p 0) eqn:Hp0; simpl.
      * apply Hskip. intros (_ & p' & Hp' & Hne & _).
        apply Z.eqb_eq in Hp0. congruence.
      * unfold bind at 1. unfold get_process_stats.
        destruct (processes w !! p) as [proc|] eqn:Hproc; simpl.
        -- apply Hskip. intros (_ & p' & Hp' & _ & Hnone). congruence.
        -- unfold no_faults in Hnf. run. no_fault Hnf. run.
           set (w1 := set_db_bots _ _).
           assert (Hq1 : quiet_pass w w1).
           { unfold quiet_pass, no_faults, w1. proj.
             repeat split; try done.
             ** by apply Forall_drop_1.
             ** intros i. apply is_Some_find_one_update_one.
             ** intros i. apply stopped_at_update.
             ** apply Forall_settled_stopped. }
           assert (Hnf1 : no_faults w1) by apply Hq1.
           destruct (IH acc w1 Hnf1) as (acc' & w2 & Hloop & Hq2 & Hdead2).
           rewrite Hloop.
           eexists _, _. split; [reflexivity|].
           split; [by eapply quiet_pass_trans|].
           intros b Hin Hvan Hsome.
           assert (Hclock : clock w1 = clock w) by apply Hq1.
           apply elem_of_cons in Hin as [->|Hin].
           ++ destruct Hq2 as (_ & _ & _ & _ & _ & _ & _ & Hkeep & _).
              rewrite Hclock in Hkeep. apply Hkeep.
              unfold w1. proj. by apply stopped_at_intro.
           ++ rewrite <- Hclock. apply Hdead2; [done| by eapply vanished_quiet |].
              destruct Hq1 as (_ & _ & _ & _ & _ & _ & Hfound & _). by apply Hfound.
    + apply Hskip. intros (_ & p' & Hp' & _). congruence.
Qed.

(** C6, as the code has it.  A record that is Running with a pid that
    counts as true and no process behind it is put back to Stopped, its
    pid cleared and [last_stopped] set, by the next listing of the bots
    when it is among the first 1000 records, and by the next periodic
    pass (five seconds on) when it is among the first 100 running
    records; in both nothing is written to the log store, and the listing
    sends nothing either.  No store write is assumed to fail. *)
Theorem reconciliation_stops_quietly (w : World) (bot : Bot) :
  no_faults w →
  vanished w bot →
  (bot ∈ take 1000 (db_bots w) →
   ∃ bots w', get_bots w = (Ok bots, w') ∧
     stopped_at (clock w) (db_bots w') (id bot) ∧
     db_logs w' = db_logs w ∧ send_log w' = send_log w) ∧
  (bot ∈ take 100 (filter is_running (db_bots w)) →
   ∃ w', websocket_pass w = (Ok tt, w') ∧
     stopped_at (5 + clock w) (db_bots w') (id bot) ∧
     db_logs w' = db_logs w).
Proof.
  intros Hnf Hvan. split.
  - intros Hin. unfold get_bots, bind.
    destruct (get_bots_loop_quiet (take 1000 (db_bots w)) w Hnf)
      as (bots' & w' & Hloop & Hq & Hdead).
    rewrite Hloop. eexists _, _. split; [reflexivity|].
    split; [|split; apply Hq].
    apply Hdead; [done|done|].
    apply elem_of_find_one.
    apply elem_of_take in Hin as (i & Hi & _). by eapply list_elem_of_lookup_2.
  - intros Hin. unfold websocket_pass, bind, sleep.
    set (w0 := set_clock (Z.add 5) w).
    assert (Hnf0 : no_faults w0) by exact Hnf.
    destruct (running_bots_loop_quiet
                (take 100 (filter is_running (db_bots w0))) [] w0 Hnf0)
      as (acc' & w' & Hloop & Hq & Hdead).
    rewrite Hloop, broadcast_ok. eexists. split; [reflexivity|].
    proj. split; [|apply Hq].
    apply (Hdead bot); [done| |].
    + destruct Hvan as (Hst & p & Hp & Hne & Hnone). split; [done|]. by exists p.
    + apply elem_of_find_one. simpl.
      apply elem_of_take in Hin as (i & Hi & _).
      apply list_elem_of_lookup_2 in Hi. by apply list_elem_of_filter in Hi as [_ ?].
Qed.

(** Witness of [reconciliation_stops_quietly], on the started bot, which
    has no process behind it. *)
Lemma reconciliation_stops_quietly_witness :
  (∃ bots w', get_bots demo_started = (Ok bots, w') ∧
     stopped_at (clock demo_started) (db_bots w') "b1" ∧
     db_logs w' = db_logs demo_started ∧ send_log w' = send_log demo_started) ∧
  (∃ w', websocket_pass demo_started = (Ok tt, w') ∧
     stopped_at (5 + clock demo_started) (db_bots w') "b1" ∧
     db_logs w' = db_logs demo_started).
Proof.
  destruct (reconciliation_stops_quietly demo_started demo_running_bot)
    as [Hlist Hpass].
  - constructor.
  - split; [reflexivity|]. exists 5242.
    split; [reflexivity|]. split; [discriminate|]. vm_compute. reflexivity.
  - split.
    + apply Hlist. vm_compute. left.
    + apply Hpass. vm_compute. left.
Defined.

(** C6 fails as stated: the started bot has no process behind it; the
    listing and the periodic pass both put its record back to Stopped
    without a pid, and neither writes anything to the log store: no
    warning, no entry saying "process exited unexpectedly". *)
Lemma reconciliation_logs_nothing_counterexample :
  status <$> find_one "b1" (db_bots demo_started) = Some RUNNING ∧
  fst (get_process_stats 5242 demo_started) = Ok None ∧
  (let w' := snd (get_bots demo_started) in
   status <$> find_one "b1" (db_bots w') = Some STOPPED ∧
   pid <$> find_one "b1" (db_bots w') = Some None ∧
   db_logs w' = db_logs demo_started ∧
   filter (fun e => level e = "WARNING") (db_logs w') = [] ∧
   filter (fun e => str_in "process exited unexpectedly" (message e) = true)
          (db_logs w') = []) ∧
  (let w' := snd (websocket_pass demo_started) in
   status <$> find_one "b1" (db_bots w') = Some STOPPED ∧
   pid <$> find_one "b1" (db_bots w') = Some None ∧
   db_logs w' = db_logs demo_started ∧
   filter (fun e => level e = "WARNING") (db_logs w') = [] ∧
   filter (fun e => str_in "process exited unexpectedly" (message e) = true)
          (db_logs w') = []).
Proof. vm_compute. repeat split; reflexivity. Qed.

(** ** The walk of [broadcast] over distinct connections *)

Lemma world_conns_sends_step w c1 ev c2 t2 :
  set_active_connections (fun _ => c2)
    (set_send_log (fun l => l ++ t2)
       (set_active_connections (fun _ => c1)
          (set_send_log (fun l => l ++ [ev]) w))) =
  set_active_connections (fun _ => c2) (set_send_log (fun l => l ++ ev :: t2) w).
Proof.
  destruct w; unfold set_active_connections, set_send_log; simpl.
  by rewrite <- app_assoc.
Qed.

Lemma world_sends_step w ev c2 t2 :
  set_active_connections (fun _ => c2)
    (set_send_log (fun l => l ++ t2) (set_send_log (fun l => l ++ [ev]) w)) =
  set_active_connections (fun _ => c2) (set_send_log (fun l => l ++ ev :: t2) w).
Proof.
  destruct w; unfold set_active_connections, set_send_log; simpl.
  by rewrite <- app_assoc.
Qed.

(** On distinct connections, the walk by index does what [walk] says. *)
Lemma broadcast_from_walk fuel message K R w :
  active_connections w = K ++ R →
  NoDup (ws_id <$> K ++ R) →
  (length R ≤ fuel)%nat →
  broadcast_from fuel (length K) message w =
    (Ok tt, set_active_connections (fun _ => K ++ (walk R).1)
              (set_send_log (fun l => l ++ events message (walk R).2) w)).
Proof.
  revert K R w. induction fuel as [|fuel IH]; intros K R w Hconns Hnd Hlen.
  - destruct R; [|simpl in Hlen; lia]. simpl. unfold ret. f_equal.
    symmetry. by apply world_eq_conns_sends.
  - destruct R as [|c R'].
    + simpl. rewrite Hconns, lookup_ge_None_2 by (rewrite app_nil_r; lia).
      f_equal. symmetry. by apply world_eq_conns_sends.
    + cbn [broadcast_from]. rewrite Hconns, list_lookup_middle by done.
      unfold bind, try_except, send_text. simpl walk.
      destruct (ws_open c) eqn:Hopen.
      * specialize (IH (K ++ [c]) R'
                      (set_send_log (fun l => l ++ [mkSend (ws_id c) message true]) w)).
        rewrite length_app, Nat.add_1_r in IH.
        rewrite IH; [ | by simpl; rewrite Hconns, <- app_assoc
                      | by rewrite <- app_assoc | simpl in Hlen; lia ].
        destruct (walk R') as [kept visited]. simpl.
        rewrite world_sends_step, <- app_assoc. done.
      * unfold remove_connection. simpl. rewrite Hconns.
        rewrite list_remove_middle.
        2:{ rewrite fmap_app, fmap_cons in Hnd.
            apply NoDup_app in Hnd as (_ & Hdisj & _).
            intros Hin. apply (Hdisj _ Hin). left. }
        destruct R' as [|c' R''].
        -- assert (Hdone : ∀ w2, active_connections w2 = K ++ [] →
                     broadcast_from fuel (S (length K)) message w2 = (Ok tt, w2)).
           { intros w2 Hw2. destruct fuel; [done|]. simpl.
             by rewrite Hw2, lookup_ge_None_2 by (rewrite app_nil_r; lia). }
           rewrite Hdone by done. reflexivity.
        -- set (w2 := set_active_connections _ _).
           specialize (IH (K ++ [c']) R'' w2).
           rewrite length_app, Nat.add_1_r in IH.
           assert (Hnd' : NoDup (ws_id <$> (K ++ [c']) ++ R'')).
           { rewrite <- app_assoc. simpl.
             rewrite !fmap_app, !fmap_cons in Hnd |- *.
             apply NoDup_app in Hnd as (HK & Hdisj & HR).
             apply NoDup_cons in HR as (_ & HR).
             apply NoDup_app. split; [done|]. split; [|done].
             intros x Hx Hin. apply (Hdisj x Hx). by right. }
           assert (Hw2 : active_connections w2 = (K ++ [c']) ++ R'').
           { unfold w2. simpl. by rewrite <- app_assoc. }
           assert (Hlen' : (length R'' ≤ fuel)%nat) by (simpl in Hlen; lia).
           rewrite (IH Hw2 Hnd' Hlen').
           destruct (walk R'') as [kept visited]. simpl. unfold w2.
           rewrite world_conns_sends_step, <- app_assoc. done.
Qed.

Lemma broadcast_walk message w :
  NoDup (ws_id <$> active_connections w) →
  broadcast message w =
    (Ok tt, set_active_connections (fun _ => (walk (active_connections w)).1)
              (set_send_log
                 (fun l => l ++ events message (walk (active_connections w)).2) w)).
Proof.
  intros Hnd. unfold broadcast.
  exact (broadcast_from_walk _ message [] (active_connections w) w
           eq_refl Hnd (le_n _)).
Qed.

(** Induction along the cases of [walk]. *)
Lemma walk_ind (P : list WebSocket → Prop) :
  P [] →
  (∀ c rest, ws_open c = true → P rest → P (c :: rest)) →
  (∀ c, ws_open c = false → P [c]) →
  (∀ c c' rest, ws_open c = false → P rest → P (c :: c' :: rest)) →
  ∀ l, P l.
Proof.
  intros Hnil Hopen Hlast Hskip l.
  cut (P l ∧ ∀ c, P (c :: l)); [by intros [? _]|].
  induction l as [|c' rest [IH1 IH2]].
  - split; [done|]. intros c. destruct (ws_open c) eqn:Hc; auto.
  - split; [apply IH2|]. intros c. destruct (ws_open c) eqn:Hc; auto.
Qed.

Lemma walk_visited_subset l i b :
  (i, b) ∈ (walk l).2 → i ∈ ws_id <$> l.
Proof.
  induction l as [|c rest Hopen IH|c Hopen|c c' rest Hopen IH] using walk_ind; simpl.
  - by intros ?%elem_of_nil.
  - rewrite Hopen. destruct (walk rest) as [kept visited]. simpl in *.
    intros [[= -> _]|Hin]%elem_of_cons; [left|right; auto].
  - rewrite Hopen. simpl. intros [[= -> _]|?%elem_of_nil]%elem_of_cons; [left|done].
  - rewrite Hopen. destruct (walk rest) as [kept visited]. simpl in *.
    intros [[= -> _]|Hin]%elem_of_cons; [left|right; right; auto].
Qed.

Lemma walk_kept_subset l c : c ∈ (walk l).1 → c ∈ l.
Proof.
  induction l as [|x rest Hopen IH|x Hopen|x x' rest Hopen IH] using walk_ind; simpl.
  - done.
  - rewrite Hopen. destruct (walk rest) as [kept visited]. simpl in *.
    intros [->|Hin]%elem_of_cons; [left|right; auto].
  - rewrite Hopen. simpl. by intros ?%elem_of_nil.
  - rewrite Hopen. destruct (walk rest) as [kept visited]. simpl in *.
    intros [->|Hin]%elem_of_cons; [right; left|right; right; auto].
Qed.

Lemma walk_kept_ids l i : i ∈ ws_id <$> (walk l).1 → i ∈ ws_id <$> l.
Proof.
  intros (c & -> & Hc)%list_elem_of_fmap.
  apply list_elem_of_fmap. exists c. split; [done|]. by apply walk_kept_subset.
Qed.

(** A connection whose [send_text] failed is not kept. *)
Lemma walk_failed_removed l i :
  NoDup (ws_id <$> l) → (i, false) ∈ (walk l).2 → i ∉ ws_id <$> (walk l).1.
Proof.
  induction l as [|c rest Hopen IH|c Hopen|c c' rest Hopen IH] using walk_ind; simpl.
  - by intros _ ?%elem_of_nil.
  - rewrite Hopen. intros [Hc Hnd]%NoDup_cons.
    pose proof (walk_visited_subset rest i false) as Hsub.
    destruct (walk rest) as [kept visited]. simpl in *.
    intros [[=]|Hin]%elem_of_cons.
    apply not_elem_of_cons. split; [|by apply IH].
    intros ->. by apply Hc, Hsub.
  - rewrite Hopen. simpl. intros _ _. apply not_elem_of_nil.
  - rewrite Hopen. intros [Hc [Hc' Hnd]%NoDup_cons]%NoDup_cons.
    pose proof (walk_visited_subset rest i false) as Hsub.
    pose proof (walk_kept_ids rest) as Hkept.
    destruct (walk rest) as [kept visited]. simpl in *.
    intros [[= ->]|Hin]%elem_of_cons.
    + apply not_elem_of_cons. split.
      * intros Heq. apply Hc. rewrite Heq. left.
      * intros Hin. apply Hc. right. by apply Hkept.
    + apply not_elem_of_cons. split; [|by apply IH].
      intros ->. by apply Hc', Hsub.
Qed.

(** After a failed [send_text], the next connection of the list is kept
    and not visited. *)
Lemma walk_skips_successor l i c c' :
  NoDup (ws_id <$> l) →
  l !! i = Some c → l !! S i = Some c' →
  (ws_id c, false) ∈ (walk l).2 →
  (∀ b, (ws_id c', b) ∉ (walk l).2) ∧ c' ∈ (walk l).1.
Proof.
  revert i. induction l as [|x rest Hopen IH|x Hopen|x y rest Hopen IH] using walk_ind; intros i; simpl.
  - done.
  - rewrite Hopen. intros [Hx Hnd]%NoDup_cons Hi HSi.
    pose proof (walk_visited_subset rest) as Hsub.
    destruct (walk rest) as [kept visited]. simpl in *.
    intros [[=]|Hin]%elem_of_cons.
    destruct i as [|i]; simpl in Hi.
    + injection Hi as ->. exfalso. apply Hx. by eapply Hsub.
    + destruct (IH i Hnd Hi HSi Hin) as [Hnot Hkept].
      split; [|by right].
      intros b [[= Heq _]|Hin']%elem_of_cons; [|by eapply Hnot].
      apply Hx. rewrite <- Heq. apply list_elem_of_fmap. exists c'.
      split; [done|]. by eapply list_elem_of_lookup_2.
  - intros _ _ HSi. done.
  - rewrite Hopen. intros [Hx [Hy Hnd]%NoDup_cons]%NoDup_cons Hi HSi.
    pose proof (walk_visited_subset rest) as Hsub.
    destruct (walk rest) as [kept visited]. simpl in *.
    assert (Hrest : ∀ j z, rest !! j = Some z → ws_id z ∈ ws_id <$> rest).
    { intros j z Hz. apply list_elem_of_fmap. exists z.
      split; [done|]. by eapply list_elem_of_lookup_2. }
    destruct i as [|[|i]]; simpl in Hi, HSi.
    + injection Hi as ->. injection HSi as ->. intros _. split; [|left].
      intros b [[= Heq _]|Hin']%elem_of_cons.
      * apply Hx. rewrite Heq. left.
      * apply Hy. by eapply Hsub.
    + injection Hi as ->. intros [[= Heq]|Hin]%elem_of_cons.
      * exfalso. apply Hx. rewrite Heq. left.
      * exfalso. apply Hy. by eapply Hsub.
    + intros [[= Heq]|Hin]%elem_of_cons.
      * exfalso. apply Hx. rewrite <- Heq. right. by eapply Hrest.
      * destruct (IH i Hnd Hi HSi Hin) as [Hnot Hkept].
        split; [|by right].
        intros b [[= Heq _]|Hin']%elem_of_cons; [|by eapply Hnot].
        apply Hx. rewrite <- Heq. right. by eapply Hrest.
Qed.

Lemma elem_of_events message visited i b :
  mkSend i message b ∈ events message visited ↔ (i, b) ∈ visited.
Proof.
  unfold events. rewrite list_elem_of_fmap. split.
  - intros ([i' b'] & [= -> ->] & Hin). done.
  - intros Hin. by exists (i, b).
Qed.

(** ** Broadcasting *)

Lemma after_broadcast_walk message w :
  NoDup (ws_id <$> active_connections w) →
  active_connections (after_broadcast message w) = (walk (active_connections w)).1 ∧
  send_log (after_broadcast message w) =
    send_log w ++ events message (walk (active_connections w)).2.
Proof.
  intros Hnd. unfold after_broadcast. by rewrite (broadcast_walk _ _ Hnd).
Qed.

(** C8: [broadcast] returns normally whatever the connections do, and
    touches neither collection of the store; so [log_message] returns
    whenever its store write succeeds, whatever the connections do.  The
    connections being distinct objects, every connection whose
    [send_text] failed during the broadcast is out of the list
    afterwards. *)
Theorem broadcast_swallows_failures (message : Message) (w : World) :
  (fst (broadcast message w) = Ok tt ∧
   db_bots (snd (broadcast message w)) = db_bots w ∧
   db_logs (snd (broadcast message w)) = db_logs w) ∧
  (∀ bid lv msg src, next_fault (faults w) = None →
     fst (log_message bid lv msg src w) = Ok tt) ∧
  (NoDup (ws_id <$> active_connections w) →
   ∃ trace,
     send_log (snd (broadcast message w)) = send_log w ++ trace ∧
     ∀ i, mkSend i message false ∈ trace →
          i ∉ ws_id <$> active_connections (snd (broadcast message w))).
Proof.
  split; [|split].
  - rewrite broadcast_ok. simpl. by autorewrite with world.
  - intros bid lv msg src Hnext. by rewrite log_message_eq, Hnext.
  - intros Hnd. fold (after_broadcast message w).
    destruct (after_broadcast_walk message w Hnd) as [-> ->].
    eexists. split; [reflexivity|].
    intros i Hin%elem_of_events. by apply walk_failed_removed.
Qed.

(** Witness of [broadcast_swallows_failures]: of three listeners the
    second fails, and is gone after the broadcast. *)
Lemma broadcast_swallows_failures_witness :
  mkSend 1 demo_message false ∈ send_log (snd (broadcast demo_message demo_listeners)) ∧
  ∃ trace,
    send_log (snd (broadcast demo_message demo_listeners)) =
      send_log demo_listeners ++ trace ∧
    ∀ i, mkSend i demo_message false ∈ trace →
         i ∉ ws_id <$> active_connections (snd (broadcast demo_message demo_listeners)).
Proof.
  split; [vm_compute; right; left|].
  destruct (broadcast_swallows_failures demo_message demo_listeners) as (_ & _ & H).
  apply H. apply (bool_decide_unpack _). vm_compute. exact I.
Defined.

(** C9: on a list of distinct connections, when [send_text] fails on the
    connection at position [i] during a broadcast, the connection at
    position [i + 1] is not sent the message in that broadcast, and it is
    still in the list afterwards: a surviving listener has missed the
    message. *)
Theorem broadcast_skips_successor (message : Message) (w : World)
    (i : nat) (c c' : WebSocket) (trace : list SendEvent) :
  NoDup (ws_id <$> active_connections w) →
  active_connections w !! i = Some c →
  active_connections w !! S i = Some c' →
  send_log (snd (broadcast message w)) = send_log w ++ trace →
  mkSend (ws_id c) message false ∈ trace →
  (∀ ok, mkSend (ws_id c') message ok ∉ trace) ∧
  c' ∈ active_connections (snd (broadcast message w)).
Proof.
  intros Hnd Hi HSi Htrace Hfail. fold (after_broadcast message w) in *.
  destruct (after_broadcast_walk message w Hnd) as [Hconns Hsends].
  rewrite Hsends in Htrace. apply app_inv_head in Htrace. subst trace.
  rewrite Hconns. apply elem_of_events in Hfail.
  destruct (walk_skips_successor _ _ _ _ Hnd Hi HSi Hfail) as [Hnot Hkept].
  split; [|done]. intros ok Hin%elem_of_events. by eapply Hnot.
Qed.

(** Witness of [broadcast_skips_successor]: of three listeners the second
    fails; the third, which is open, is not sent the message and stays
    listed. *)
Lemma broadcast_skips_successor_witness :
  ws_open (mkWebSocket 2 true) = true ∧
  (∀ ok, mkSend 2 demo_message ok ∉
           [mkSend 0 demo_message true; mkSend 1 demo_message false]) ∧
  mkWebSocket 2 true ∈ active_connections (snd (broadcast demo_message demo_listeners)).
Proof.
  split; [reflexivity|].
  apply (broadcast_skips_successor demo_message demo_listeners 1
           (mkWebSocket 1 false) (mkWebSocket 2 true)
           [mkSend 0 demo_message true; mkSend 1 demo_message false]).
  - apply (bool_decide_unpack _). vm_compute. exact I.
  - reflexivity.
  - reflexivity.
  - vm_compute. reflexivity.
  - right. left.
Defined.

(** ** The pid invariant *)

Lemma preserves_ret {A} (a : A) : preserves (ret a).
Proof. by intros w. Qed.

Lemma preserves_raise {A} e : preserves (@raise A e).
Proof. by intros w. Qed.

Lemma keeps_bind {A B} (m : M A) (k : A → M B) w :
  store_consistent (snd (m w)) → (∀ a, preserves (k a)) →
  store_consistent (snd (bind m k w)).
Proof.
  unfold bind. intros Hm Hk. destruct (m w) as [[a|e] w1]; [by apply Hk|done].
Qed.

Lemma keeps_try_except {A} (m : M A) h w :
  store_consistent (snd (m w)) → (∀ e, preserves (h e)) →
  store_consistent (snd (try_except m h w)).
Proof.
  unfold try_except. intros Hm Hh. destruct (m w) as [[a|e] w1]; [done|by apply Hh].
Qed.

Lemma preserves_bind {A B} (m : M A) (k : A → M B) :
  preserves m → (∀ a, preserves (k a)) → preserves (bind m k).
Proof. intros Hm Hk w Hw. apply keeps_bind; auto. Qed.

Lemma preserves_try_except {A} (m : M A) h :
  preserves m → (∀ e, preserves (h e)) → preserves (try_except m h).
Proof. intros Hm Hh w Hw. apply keeps_try_except; auto. Qed.

Lemma preserves_try_except_http {A} (m : M A) h :
  preserves m → (∀ c d, preserves (h c d)) → preserves (try_except_http m h).
Proof.
  intros Hm Hh w Hw. unfold try_except_http. specialize (Hm w Hw).
  destruct (m w) as [[a|[c d| |]] w1]; try done. by apply Hh.
Qed.

Lemma preserves_frame {A} (m : M A) :
  (∀ w, db_bots (snd (m w)) = db_bots w) → preserves m.
Proof. intros Hm w Hw. unfold store_consistent. by rewrite Hm. Qed.

Lemma preserves_log_message bid lv msg src : preserves (log_message bid lv msg src).
Proof.
  apply preserves_frame. intros w. rewrite log_message_eq.
  destruct (next_fault (faults w)); proj; done.
Qed.

Lemma pid_consistent_apply_set st p t b :
  st ≠ STOPPING → (st = RUNNING → p ≠ None) →
  pid_consistent (apply_set (update_data_of st p t) b).
Proof.
  unfold pid_consistent. intros Hst Hp.
  destruct st, p; simpl; try done. by specialize (Hp eq_refl).
Qed.

Lemma preserves_update_bot_status bid st p :
  st ≠ STOPPING → (st = RUNNING → p ≠ None) →
  preserves (update_bot_status bid st p).
Proof.
  intros Hst Hp w Hw. rewrite update_bot_status_eq.
  destruct (next_fault (faults w)); [done|]. unfold store_consistent. proj.
  apply Forall_update_one; [done|]. intros b _ _.
  by apply pid_consistent_apply_set.
Qed.

(** The one write of Stopping: it is made on a record found Running. *)
Lemma keeps_stopping bid bot w :
  store_consistent w →
  find_one bid (db_bots w) = Some bot → status bot = RUNNING →
  store_consistent (snd (update_bot_status bid STOPPING None w)).
Proof.
  intros Hw Hfind Hrun. rewrite update_bot_status_eq.
  destruct (next_fault (faults w)); [done|]. unfold store_consistent. proj.
  apply Forall_update_one; [done|]. intros b Hb Hcons.
  assert (b = bot) as -> by congruence.
  unfold pid_consistent in *. rewrite Hrun in Hcons. simpl. done.
Qed.

Create HintDb keeps discriminated.
#[global] Hint Resolve preserves_ret preserves_raise preserves_log_message : keeps.
#[global] Hint Extern 1 (preserves (update_bot_status _ _ _)) =>
  apply preserves_update_bot_status; [discriminate | first [discriminate | done]] : keeps.
#[global] Hint Extern 2 (preserves (bind _ _)) =>
  apply preserves_bind; [|intros ?] : keeps.
#[global] Hint Extern 2 (preserves (try_except _ _)) =>
  apply preserves_try_except; [|intros ?] : keeps.
#[global] Hint Extern 3 (preserves _) => (apply preserves_frame; intros ?; reflexivity) : keeps.
#[global] Hint Extern 4 (preserves (if ?b then _ else _)) => destruct b : keeps.

Lemma preserves_start_bot bid : preserves (start_bot bid).
Proof.
  unfold start_bot. apply preserves_bind; [auto with keeps|].
  intros [bot|]; [|auto with keeps].
  destruct (bool_decide (status bot = RUNNING)); [auto with keeps|].
  auto 20 with keeps.
Qed.

Lemma preserves_stop_bot bid : preserves (stop_bot bid).
Proof.
  intros w Hw. unfold stop_bot. unfold bind at 1. unfold get_bot_by_id.
  destruct (find_one bid (db_bots w)) as [bot|] eqn:Hfind; [|done].
  destruct (bool_decide (status bot = RUNNING)) eqn:Hrun; simpl; [|done].
  apply bool_decide_eq_true in Hrun.
  apply keeps_try_except; [|intros e; auto 20 with keeps].
  apply keeps_bind; [by eapply keeps_stopping|].
  intros _. auto 20 with keeps.
Qed.

Lemma preserves_restart_bot bid : preserves (restart_bot bid).
Proof.
  unfold restart_bot. apply preserves_try_except_http.
  - apply preserves_bind; [apply preserves_stop_bot|]. intros _.
    apply preserves_bind; [auto with keeps|]. intros _. apply preserves_start_bot.
  - intros c d. destruct (str_in "not running" d);
      [apply preserves_start_bot|auto with keeps].
Qed.

Lemma preserves_store_write : preserves store_write.
Proof.
  apply preserves_frame. intros w. rewrite store_write_eq.
  by destruct (next_fault (faults w)).
Qed.

Lemma preserves_broadcast message : preserves (broadcast message).
Proof.
  apply preserves_frame. intros w. rewrite broadcast_ok. proj. done.
Qed.

#[global] Hint Resolve preserves_store_write preserves_broadcast
  preserves_start_bot preserves_stop_bot : keeps.

Lemma preserves_create_bot bot_data : preserves (create_bot bot_data).
Proof.
  unfold create_bot.
  apply preserves_bind; [auto with keeps|]. intros i.
  apply preserves_bind; [auto with keeps|]. intros now.
  apply preserves_bind; [auto with keeps|]. intros _.
  apply preserves_bind; [|auto 10 with keeps].
  intros w Hw. unfold store_consistent. simpl.
  apply Forall_app. split; [done|]. by repeat constructor.
Qed.

Lemma preserves_delete_bot bid : preserves (delete_bot bid).
Proof.
  unfold delete_bot. apply preserves_bind; [auto with keeps|].
  intros [bot|]; [|auto with keeps].
  apply preserves_bind.
  { destruct (bool_decide (status bot = RUNNING)); auto 10 with keeps. }
  intros _. apply preserves_bind; [auto with keeps|]. intros _.
  apply preserves_bind.
  { intros w Hw. by apply Forall_delete_one. }
  intros _. auto 10 with keeps.
Qed.

Lemma preserves_refresh_stats bot : preserves (refresh_stats bot).
Proof.
  unfold refresh_stats.
  destruct (bool_decide (status bot = RUNNING) && truthy (pid bot));
    [|auto with keeps].
  apply preserves_bind; [auto with keeps|].
  intros [stats|]; auto 10 with keeps.
Qed.

Lemma preserves_get_bots_loop bots : preserves (get_bots_loop bots).
Proof.
  induction bots as [|bot rest IH]; simpl; [auto with keeps|].
  apply preserves_bind; [apply preserves_refresh_stats|]. intros bot'.
  apply preserves_bind; [apply IH|]. auto with keeps.
Qed.

Lemma preserves_get_bots : preserves get_bots.
Proof.
  unfold get_bots. apply preserves_bind; [auto with keeps|].
  intros bots. apply preserves_get_bots_loop.
Qed.

Lemma preserves_get_bot bid : preserves (get_bot bid).
Proof.
  unfold get_bot. apply preserves_bind; [auto with keeps|].
  intros [bot|]; [apply preserves_refresh_stats|auto with keeps].
Qed.

Lemma preserves_running_bots_loop bots acc : preserves (running_bots_loop bots acc).
Proof.
  revert acc. induction bots as [|bot rest IH]; intros acc; simpl; [auto with keeps|].
  destruct (truthy (pid bot)); [|apply IH].
  apply preserves_bind; [auto with keeps|].
  intros [stats|].
  - apply preserves_bind; [auto with keeps|]. intros now. apply IH.
  - apply preserves_bind; [auto with keeps|]. intros _. apply IH.
Qed.

Lemma preserves_websocket_pass : preserves websocket_pass.
Proof.
  unfold websocket_pass.
  apply preserves_bind; [solve [auto with keeps]|]. intros _.
  apply preserves_bind; [solve [auto with keeps]|]. intros total_bots.
  apply preserves_bind; [solve [auto with keeps]|]. intros active_bots.
  apply preserves_bind; [solve [auto with keeps]|]. intros bots_data.
  apply preserves_bind; [apply preserves_running_bots_loop|].
  auto with keeps.
Qed.

Lemma preserves_update_bot bid bot_update : preserves (update_bot bid bot_update).
Proof.
  unfold update_bot. apply preserves_bind; [auto with keeps|].
  intros [bot|]; [|auto with keeps].
  apply preserves_bind; [|auto with keeps].
  destruct (some_field bot_update); [|auto with keeps].
  apply preserves_bind; [auto with keeps|]. intros _.
  apply preserves_bind; [|auto with keeps].
  intros w Hw. apply Forall_update_one; [done|]. by intros b _ Hb.
Qed.

Lemma preserves_add_bot_log bid log_data : preserves (add_bot_log bid log_data).
Proof. unfold add_bot_log. auto 20 with keeps. Qed.

Lemma store_consistent_serve r w :
  store_consistent w → store_consistent (serve r w).
Proof.
  destruct r; simpl.
  - apply preserves_create_bot.
  - apply preserves_update_bot.
  - apply preserves_add_bot_log.
  - apply preserves_start_bot.
  - apply preserves_stop_bot.
  - apply preserves_restart_bot.
  - apply preserves_delete_bot.
  - apply preserves_get_bots.
  - apply preserves_get_bot.
  - apply preserves_websocket_pass.
Qed.

Lemma reachable_store_consistent w : reachable w → store_consistent w.
Proof.
  induction 1 as [w Hinit|r w _ IH|w w' _ IH Henv].
  - unfold store_consistent. rewrite Hinit. constructor.
  - by apply store_consistent_serve.
  - unfold store_consistent. by rewrite Henv.
Qed.

(** ** The invariant of the specification, when the store never fails *)

Lemma update_one_twice i f g docs :
  (∀ b, id (g b) = id b) →
  update_one i f (update_one i g docs) = update_one i (fun b => f (g b)) docs.
Proof.
  intros Hid. induction docs as [|b rest IH]; simpl; [done|].
  destruct (decide (id b = i)) as [Hi|Hi]; simpl.
  - by rewrite Hid, decide_True.
  - by rewrite decide_False, IH.
Qed.

Lemma at_rest_start_bot bid w : at_rest w → at_rest (snd (start_bot bid w)).
Proof.
  intros [Hnf Hrest].
  destruct (find_one bid (db_bots w)) as [bot|] eqn:Hfind.
  - destruct (decide (status bot = RUNNING)) as [Hrun|Hrun].
    + by rewrite (start_bot_refused _ _ _ Hfind Hrun).
    + destruct (start_bot_returns _ _ _ Hnf Hfind Hrun) as (w' & Hstart & Hnf').
      destruct (start_bot_ok_inv _ _ _ _ Hstart) as (_ & _ & _ & _ & Hbots & _).
      rewrite Hstart. split; [done|]. simpl. rewrite Hbots.
      rewrite update_one_twice by done.
      apply Forall_update_one; [done|]. intros b _ _. by right.
  - by rewrite (start_bot_unknown _ _ Hfind).
Qed.

Lemma at_rest_stop_bot bid w : at_rest w → at_rest (snd (stop_bot bid w)).
Proof.
  intros [Hnf Hrest].
  destruct (find_one bid (db_bots w)) as [bot|] eqn:Hfind.
  - destruct (decide (status bot = RUNNING)) as [Hrun|Hrun].
    + destruct (stop_bot_returns _ _ _ Hnf Hfind Hrun) as (w' & Hstop & Hnf').
      destruct (stop_bot_ok_inv _ _ _ _ Hstop) as (_ & _ & _ & _ & Hbots & _).
      rewrite Hstop. split; [done|]. simpl. rewrite Hbots.
      rewrite update_one_twice by done.
      apply Forall_update_one; [done|]. intros b _ _. by left.
    + by rewrite (stop_bot_refused _ _ _ Hfind Hrun).
  - by rewrite (stop_bot_unknown _ _ Hfind).
Qed.

Lemma at_rest_restart_bot bid w : at_rest w → at_rest (snd (restart_bot bid w)).
Proof.
  intros Hw. unfold restart_bot, try_except_http. unfold bind at 1.
  pose proof (at_rest_stop_bot bid w Hw) as Hstop.
  destruct (stop_bot bid w) as [[r|[c d|msg|msg]] w1]; simpl in Hstop; try done.
  - unfold bind, sleep.
    set (w2 := set_clock (Z.add 1) w1).
    assert (Hw2 : at_rest w2) by exact Hstop.
    pose proof (at_rest_start_bot bid w2 Hw2) as Hstart.
    destruct (start_bot bid w2) as [[r'|[c d|msg|msg]] w3]; simpl in Hstart; try done.
    destruct (str_in "not running" d); [|done].
    by apply at_rest_start_bot.
  - destruct (str_in "not running" d); [|done].
    by apply at_rest_start_bot.
Qed.

Lemma at_rest_create_bot bot_data w : at_rest w → at_rest (snd (create_bot bot_data w)).
Proof.
  intros [Hnf Hrest]. unfold no_faults in Hnf. unfold create_bot.
  run. no_fault Hnf. run. no_fault Hnf. run.
  split.
  - unfold no_faults. proj. by repeat apply Forall_drop_1.
  - proj. apply Forall_app. split; [done|]. apply Forall_singleton. by left.
Qed.

Lemma at_rest_update_bot bid bot_update w :
  at_rest w → at_rest (snd (update_bot bid bot_update w)).
Proof.
  intros [Hnf Hrest]. unfold no_faults in Hnf. unfold update_bot.
  unfold bind at 1. unfold get_bot_by_id at 1.
  destruct (find_one bid (db_bots w)) as [bot|]; [|done].
  destruct (some_field bot_update).
  - run. no_fault Hnf. run. no_fault Hnf. run. split.
    + unfold no_faults. proj. by repeat apply Forall_drop_1.
    + proj. apply Forall_update_one; [done|]. by intros b _ Hb.
  - done.
Qed.

Lemma at_rest_add_bot_log bid log_data w :
  at_rest w → at_rest (snd (add_bot_log bid log_data w)).
Proof.
  intros [Hnf Hrest]. unfold no_faults in Hnf. unfold add_bot_log.
  unfold bind, uuid4, utcnow. rewrite store_write_eq. simpl. no_fault Hnf.
  rewrite broadcast_ok. split.
  - unfold no_faults. proj. by apply Forall_drop_1.
  - proj. done.
Qed.

Lemma at_rest_delete_bot bid w : at_rest w → at_rest (snd (delete_bot bid w)).
Proof.
  intros [Hnf Hrest].
  destruct (find_one bid (db_bots w)) as [bot|] eqn:Hfind.
  - destruct (delete_bot_returns _ _ _ Hnf Hfind) as (w' & Hdel & Hnf').
    destruct (delete_bot_ok_inv _ _ _ _ Hdel) as (_ & _ & _ & _ & Hbots & _).
    rewrite Hdel. split; [done|]. simpl. rewrite Hbots.
    by apply Forall_delete_one.
  - unfold delete_bot, bind, get_bot_by_id. by rewrite Hfind.
Qed.

Lemma at_rest_quiet w w' : at_rest w → quiet_pass w w' → at_rest w'.
Proof.
  intros [Hnf Hrest] (_ & _ & _ & _ & _ & Hnf' & _ & _ & Hkeep). split; auto.
Qed.

Lemma at_rest_get_bots w : at_rest w → at_rest (snd (get_bots w)).
Proof.
  intros Hw. unfold get_bots, bind.
  destruct (get_bots_loop_quiet (take 1000 (db_bots w)) w (proj1 Hw))
    as (bots' & w' & Hloop & Hq & _).
  rewrite Hloop. by eapply at_rest_quiet.
Qed.

Lemma at_rest_get_bot bid w : at_rest w → at_rest (snd (get_bot bid w)).
Proof.
  intros Hw. unfold get_bot, bind, get_bot_by_id.
  destruct (find_one bid (db_bots w)) as [bot|]; [|done].
  destruct (refresh_stats_quiet bot w (proj1 Hw)) as (bot' & w' & Hstep & Hq & _).
  rewrite Hstep. by eapply at_rest_quiet.
Qed.

Lemma at_rest_websocket_pass w : at_rest w → at_rest (snd (websocket_pass w)).
Proof.
  intros Hw. unfold websocket_pass, bind, sleep.
  set (w0 := set_clock (Z.add 5) w).
  assert (Hw0 : at_rest w0) by exact Hw.
  destruct (running_bots_loop_quiet
              (take 100 (filter is_running (db_bots w0))) [] w0 (proj1 Hw0))
    as (acc' & w' & Hloop & Hq & _).
  rewrite Hloop, broadcast_ok.
  pose proof (at_rest_quiet _ _ Hw0 Hq) as [Hnf' Hrest'].
  split.
  - unfold no_faults. proj. exact Hnf'.
  - proj. exact Hrest'.
Qed.

Lemma at_rest_serve r w : at_rest w → at_rest (serve r w).
Proof.
  destruct r; simpl.
  - apply at_rest_create_bot.
  - apply at_rest_update_bot.
  - apply at_rest_add_bot_log.
  - apply at_rest_start_bot.
  - apply at_rest_stop_bot.
  - apply at_rest_restart_bot.
  - apply at_rest_delete_bot.
  - apply at_rest_get_bots.
  - apply at_rest_get_bot.
  - apply at_rest_websocket_pass.
Qed.

Lemma reachable_calm_at_rest w : reachable_calm w → at_rest w.
Proof.
  induction 1 as [w Hinit Hnf|r w _ IH|w w' _ [_ IH] Henv Hnf].
  - split; [done|]. rewrite Hinit. constructor.
  - by apply at_rest_serve.
  - split; [done|]. by rewrite Henv.
Qed.

Lemma settled_pid_iff_live b : settled b → pid_iff_live b.
Proof.
  unfold pid_iff_live. intros [[Hst Hpid]|[Hst Hpid]]; rewrite Hst.
  - split; [done|]. intros [?|?]; discriminate.
  - split; [by left|done].
Qed.

(** C1, as the code has it.  In every world the server can reach, store
    failures included, a record that is Running or Stopping has a pid and
    a record that is Stopped has none; [update_bot_status] leaves the pid
    alone when it sets Starting or Error, so those two states carry
    whatever pid the record had.  When the store never fails, records are
    only ever Stopped or Running between requests, and the pid is there
    exactly in Running and Stopping. *)
Theorem pid_invariant (w : World) (b : Bot) :
  b ∈ db_bots w →
  (reachable w →
     (status b = RUNNING ∨ status b = STOPPING → pid b ≠ None) ∧
     (status b = STOPPED → pid b = None)) ∧
  (reachable_calm w →
     pid_iff_live b ∧ (status b = STOPPED ∨ status b = RUNNING)).
Proof.
  intros Hin. split.
  - intros Hreach. apply reachable_store_consistent in Hreach.
    unfold store_consistent in Hreach. rewrite Forall_forall in Hreach.
    specialize (Hreach b Hin). unfold pid_consistent in Hreach.
    split.
    + intros [Hst|Hst]; by rewrite Hst in Hreach.
    + intros Hst. by rewrite Hst in Hreach.
  - intros Hcalm. apply reachable_calm_at_rest in Hcalm as [_ Hrest].
    rewrite Forall_forall in Hrest. specialize (Hrest b Hin).
    split; [by apply settled_pid_iff_live|].
    destruct Hrest as [[? _]|[? _]]; auto.
Qed.

(** Witness of [pid_invariant]: the demo bot, created and started on an
    empty server. *)
Lemma pid_invariant_witness :
  let w := serve (StartBot "uuid-0") (serve (CreateBot demo_data) demo_empty) in
  let b := mkBot "uuid-0" "alpha" (Some "") GENERAL RUNNING None "python bot.py"
                 "/app" ∅ (Some 5242) 100 (Some 100) None 0%Q 0%Q None in
  b ∈ db_bots w ∧ reachable w ∧ reachable_calm w ∧
  ((status b = RUNNING ∨ status b = STOPPING → pid b ≠ None) ∧
   (status b = STOPPED → pid b = None)) ∧
  (pid_iff_live b ∧ (status b = STOPPED ∨ status b = RUNNING)).
Proof.
  intros w b.
  assert (Hin : b ∈ db_bots w) by (vm_compute; left).
  assert (Hreach : reachable w).
  { apply reachable_serve, reachable_serve, reachable_init. reflexivity. }
  assert (Hcalm : reachable_calm w).
  { apply calm_serve, calm_serve, calm_init; [reflexivity|constructor]. }
  destruct (pid_invariant w b Hin) as [H1 H2].
  split; [exact Hin|]. split; [exact Hreach|]. split; [exact Hcalm|].
  split; [exact (H1 Hreach)|exact (H2 Hcalm)].
Defined.

(** C1 fails as stated.  On an empty server the demo bot is created and
    started; the store loses the write of the "started" log entry, after
    the record was set Running with pid 5242.  The handler of [start_bot]
    sets the record to Error, which leaves the pid in place: the record
    is in Error with a pid.  A later [start_bot] that fails after its
    first write leaves the record in Starting, still with that pid. *)
Lemma pid_invariant_counterexample :
  (let w := serve (StartBot "uuid-0")
              (serve (CreateBot demo_data) demo_sixth_write_fails) in
   reachable w ∧
   (status <$> db_bots w) = [ERROR] ∧ (pid <$> db_bots w) = [Some 5242]) ∧
  (let w := serve (StartBot "uuid-0")
              (serve (StartBot "uuid-0")
                 (serve (CreateBot demo_data) demo_two_outages)) in
   reachable w ∧
   (status <$> db_bots w) = [STARTING] ∧ (pid <$> db_bots w) = [Some 5242]).
Proof.
  split.
  - split; [apply reachable_serve, reachable_serve, reachable_init; reflexivity|].
    vm_compute. split; reflexivity.
  - split; [apply reachable_serve, reachable_serve, reachable_serve, reachable_init;
            reflexivity|].
    vm_compute. split; reflexivity.
Qed.

(** * Further properties *)

(** ** What the endpoints leave alone

    A relation between worlds that holds across every elementary effect
    of the endpoints holds across the endpoints themselves. *)

Section Respects.
Variable R : World → World → Prop.
Hypothesis R_refl : ∀ w, R w w.
Hypothesis R_trans : ∀ w1 w2 w3, R w1 w2 → R w2 w3 → R w1 w3.
Hypothesis R_clock : ∀ f w, R w (set_clock f w).
Hypothesis R_uuid : ∀ f w, R w (set_uuid_ctr f w).
Hypothesis R_rand : ∀ f w, R w (set_rand f w).
Hypothesis R_faults : ∀ f w, R w (set_faults f w).
Hypothesis R_broadcast : ∀ message w, R w (after_broadcast message w).
Hypothesis R_status : ∀ i u w, R w (set_db_bots (update_one i (apply_set u)) w).
Hypothesis R_fields : ∀ i u w, R w (set_db_bots (update_one i (apply_update u)) w).
Hypothesis R_log : ∀ e w, R w (set_db_logs (fun l => l ++ [e]) w).
Hypothesis R_insert : ∀ b w, R w (set_db_bots (fun l => l ++ [b]) w).
Hypothesis R_delete_one : ∀ i w, R w (set_db_bots (delete_one i) w).
Hypothesis R_delete_many : ∀ i w, R w (set_db_logs (delete_many i) w).

Lemma respects_ret {A} (a : A) : respects R (ret a).
Proof using R_refl. intros w. apply R_refl. Qed.

Lemma respects_raise {A} e : respects R (@raise A e).
Proof using R_refl. intros w. apply R_refl. Qed.

Lemma respects_read {A} (f : World → A) : respects R (fun w => (Ok (f w), w)).
Proof using R_refl. intros w. apply R_refl. Qed.

Lemma respects_bind {A B} (m : M A) (k : A → M B) :
  respects R m → (∀ a, respects R (k a)) → respects R (bind m k).
Proof using R_trans.
  intros Hm Hk w. unfold bind. specialize (Hm w).
  destruct (m w) as [[a|e] w1]; [|done].
  eapply R_trans; [exact Hm|apply Hk].
Qed.

Lemma respects_try_except {A} (m : M A) h :
  respects R m → (∀ e, respects R (h e)) → respects R (try_except m h).
Proof using R_trans.
  intros Hm Hh w. unfold try_except. specialize (Hm w).
  destruct (m w) as [[a|e] w1]; [done|].
  eapply R_trans; [exact Hm|apply Hh].
Qed.

Lemma respects_try_except_http {A} (m : M A) h :
  respects R m → (∀ c d, respects R (h c d)) → respects R (try_except_http m h).
Proof using R_trans.
  intros Hm Hh w. unfold try_except_http. specialize (Hm w).
  destruct (m w) as [[a|[c d| |]] w1]; try done.
  eapply R_trans; [exact Hm|apply Hh].
Qed.

Lemma respects_store_write : respects R store_write.
Proof using R_faults.
  intros w. rewrite store_write_eq. destruct (next_fault (faults w)); apply R_faults.
Qed.

Lemma respects_update_bot_status bid st p : respects R (update_bot_status bid st p).
Proof using R_trans R_faults R_status.
  intros w. rewrite update_bot_status_eq.
  destruct (next_fault (faults w)); simpl; [apply R_faults|].
  eapply R_trans; [apply R_faults|apply R_status].
Qed.

Lemma respects_broadcast message : respects R (broadcast message).
Proof using R_broadcast. intros w. rewrite broadcast_ok. apply R_broadcast. Qed.

Lemma respects_log_message bid lv msg src : respects R (log_message bid lv msg src).
Proof using R_trans R_uuid R_faults R_broadcast R_log.
  intros w. rewrite log_message_eq.
  destruct (next_fault (faults w)); simpl.
  - eapply R_trans; [apply R_uuid|apply R_faults].
  - eapply R_trans; [apply R_uuid|].
    eapply R_trans; [apply R_faults|].
    eapply R_trans; [apply R_log|apply R_broadcast].
Qed.

Lemma respects_start_bot bid : respects R (start_bot bid).
Proof using R_refl R_trans R_uuid R_rand R_faults R_broadcast R_status R_log.
  unfold start_bot. apply respects_bind; [apply respects_read|].
  intros [bot|]; [|apply respects_raise].
  destruct (bool_decide (status bot = RUNNING)); [apply respects_raise|].
  apply respects_try_except.
  - apply respects_bind; [apply respects_update_bot_status|]. intros _.
    apply respects_bind; [apply respects_log_message|]. intros _.
    apply respects_bind; [apply respects_read|]. intros env.
    apply respects_bind; [intros w; apply R_rand|]. intros fake_pid.
    apply respects_bind; [apply respects_update_bot_status|]. intros _.
    apply respects_bind; [apply respects_log_message|]. intros _.
    apply respects_ret.
  - intros e.
    apply respects_bind; [apply respects_update_bot_status|]. intros _.
    apply respects_bind; [apply respects_log_message|]. intros _.
    apply respects_raise.
Qed.

Lemma respects_stop_bot bid : respects R (stop_bot bid).
Proof using R_refl R_trans R_uuid R_faults R_broadcast R_status R_log.
  unfold stop_bot. apply respects_bind; [apply respects_read|].
  intros [bot|]; [|apply respects_raise].
  destruct (negb (bool_decide (status bot = RUNNING))); [apply respects_raise|].
  apply respects_try_except.
  - apply respects_bind; [apply respects_update_bot_status|]. intros _.
    apply respects_bind; [apply respects_log_message|]. intros _.
    apply respects_bind; [destruct (truthy (pid bot)); apply respects_ret|].
    intros _.
    apply respects_bind; [apply respects_update_bot_status|]. intros _.
    apply respects_bind; [apply respects_log_message|]. intros _.
    apply respects_ret.
  - intros e.
    apply respects_bind; [apply respects_update_bot_status|]. intros _.
    apply respects_bind; [apply respects_log_message|]. intros _.
    apply respects_raise.
Qed.

Lemma respects_restart_bot bid : respects R (restart_bot bid).
Proof using R_refl R_trans R_clock R_uuid R_rand R_faults R_broadcast R_status R_log.
  unfold restart_bot. apply respects_try_except_http.
  - apply respects_bind; [apply respects_stop_bot|]. intros _.
    apply respects_bind; [intros w; apply R_clock|]. intros _.
    apply respects_start_bot.
  - intros c d. destruct (str_in "not running" d);
      [apply respects_start_bot|apply respects_raise].
Qed.

Lemma respects_refresh_stats bot : respects R (refresh_stats bot).
Proof using R_refl R_trans R_faults R_status.
  unfold refresh_stats.
  destruct (bool_decide (status bot = RUNNING) && truthy (pid bot));
    [|apply respects_ret].
  apply respects_bind; [apply respects_read|].
  intros [stats|].
  - apply respects_bind; [apply respects_read|]. intros now. apply respects_ret.
  - apply respects_bind; [apply respects_update_bot_status|]. intros _.
    apply respects_ret.
Qed.

Lemma respects_get_bots : respects R get_bots.
Proof using R_refl R_trans R_faults R_status.
  unfold get_bots. apply respects_bind; [apply respects_read|]. intros bots.
  induction bots as [|bot rest IH]; simpl; [apply respects_ret|].
  apply respects_bind; [apply respects_refresh_stats|]. intros bot'.
  apply respects_bind; [apply IH|]. intros rest'. apply respects_ret.
Qed.

Lemma respects_get_bot bid : respects R (get_bot bid).
Proof using R_refl R_trans R_faults R_status.
  unfold get_bot. apply respects_bind; [apply respects_read|].
  intros [bot|]; [apply respects_refresh_stats|apply respects_raise].
Qed.

Lemma respects_running_bots_loop bots acc : respects R (running_bots_loop bots acc).
Proof using R_refl R_trans R_faults R_status.
  revert acc. induction bots as [|bot rest IH]; intros acc; simpl;
    [apply respects_ret|].
  destruct (truthy (pid bot)); [|apply IH].
  apply respects_bind; [apply respects_read|].
  intros [stats|].
  - apply respects_bind; [apply respects_read|]. intros now. apply IH.
  - apply respects_bind; [apply respects_update_bot_status|]. intros _. apply IH.
Qed.

Lemma respects_websocket_pass : respects R websocket_pass.
Proof using R_refl R_trans R_clock R_faults R_broadcast R_status.
  unfold websocket_pass.
  apply respects_bind; [intros w; apply R_clock|]. intros _.
  apply respects_bind; [apply respects_read|]. intros total_bots.
  apply respects_bind; [apply respects_read|]. intros active_bots.
  apply respects_bind; [apply respects_read|]. intros bots_data.
  apply respects_bind; [apply respects_running_bots_loop|]. intros acc.
  apply respects_broadcast.
Qed.

Lemma respects_update_bot bid bot_update : respects R (update_bot bid bot_update).
Proof using R_refl R_trans R_uuid R_faults R_broadcast R_fields R_log.
  unfold update_bot. apply respects_bind; [apply respects_read|].
  intros [bot|]; [|apply respects_raise].
  apply respects_bind; [|intros _; apply respects_read].
  destruct (some_field bot_update); [|apply respects_ret].
  apply respects_bind; [apply respects_store_write|]. intros _.
  apply respects_bind; [intros w; apply R_fields|]. intros _.
  apply respects_log_message.
Qed.

Lemma respects_add_bot_log bid log_data : respects R (add_bot_log bid log_data).
Proof using R_refl R_trans R_uuid R_faults R_broadcast R_log.
  unfold add_bot_log.
  apply respects_bind; [intros w; apply R_uuid|]. intros i.
  apply respects_bind; [apply respects_read|]. intros now.
  apply respects_bind; [apply respects_store_write|]. intros _.
  apply respects_bind; [intros w; apply R_log|]. intros _.
  apply respects_bind; [apply respects_broadcast|]. intros _.
  apply respects_ret.
Qed.

Lemma respects_create_bot bot_data : respects R (create_bot bot_data).
Proof using R_refl R_trans R_uuid R_faults R_broadcast R_log R_insert.
  unfold create_bot.
  apply respects_bind; [intros w; apply R_uuid|]. intros i.
  apply respects_bind; [apply respects_read|]. intros now.
  apply respects_bind; [apply respects_store_write|]. intros _.
  apply respects_bind; [intros w; apply R_insert|]. intros _.
  apply respects_bind; [apply respects_log_message|]. intros _.
  apply respects_ret.
Qed.

Lemma respects_delete_bot bid : respects R (delete_bot bid).
Proof using R_refl R_trans R_uuid R_faults R_broadcast R_status R_log
            R_delete_one R_delete_many.
  unfold delete_bot. apply respects_bind; [apply respects_read|].
  intros [bot|]; [|apply respects_raise].
  apply respects_bind.
  { destruct (bool_decide (status bot = RUNNING)); [|apply respects_ret].
    apply respects_bind; [apply respects_stop_bot|]. intros _. apply respects_ret. }
  intros _.
  apply respects_bind; [apply respects_store_write|]. intros _.
  apply respects_bind; [intros w; apply R_delete_one|]. intros _.
  apply respects_bind; [apply respects_store_write|]. intros _.
  apply respects_bind; [intros w; apply R_delete_many|]. intros _.
  apply respects_bind; [apply respects_log_message|]. intros _.
  apply respects_ret.
Qed.
End Respects.

Lemma ids_update_one i f docs :
  (∀ b, id (f b) = id b) → id <$> update_one i f docs = id <$> docs.
Proof.
  intros Hid. induction docs as [|b rest IH]; simpl; [done|].
  destruct (decide (id b = i)); rewrite !fmap_cons; [by rewrite Hid|by f_equal].
Qed.

Lemma list_remove_sublist x l l' : list_remove x l = Some l' → l' `sublist_of` l.
Proof.
  revert l'. induction l as [|y rest IH]; intros l'; simpl; [done|].
  destruct (decide (ws_id y = ws_id x)).
  - intros [= ->]. by apply sublist_cons.
  - destruct (list_remove x rest) as [r|]; simpl; [|done].
    intros [= <-]. apply sublist_skip. by apply IH.
Qed.

Lemma broadcast_from_sublist fuel i message w :
  active_connections (snd (broadcast_from fuel i message w))
    `sublist_of` active_connections w.
Proof.
  revert i w. induction fuel as [|fuel IH]; intros i w; simpl; [done|].
  destruct (active_connections w !! i) as [c|] eqn:Hi; [|done].
  unfold bind, try_except, send_text. destruct (ws_open c).
  - apply (IH (S i) (set_send_log _ w)).
  - unfold remove_connection. simpl.
    destruct (list_remove_lookup _ _ _ Hi) as (l' & Hl' & _). rewrite Hl'.
    etrans; [apply IH|]. simpl. by eapply list_remove_sublist.
Qed.

(** X1: no request other than the creation and the deletion of a bot
    changes which records the store holds: whatever the store and the
    connections do, the identifiers of the records are the same, in the
    same order, after the request as before. *)
Theorem serve_same_ids (r : Request) (w : World) :
  (∀ bot_data, r ≠ CreateBot bot_data) → (∀ i, r ≠ DeleteBot i) →
  id <$> db_bots (serve r w) = id <$> db_bots w.
Proof.
  intros Hcreate Hdelete.
  assert (Hrefl : ∀ w, same_ids w w) by done.
  assert (Htrans : ∀ w1 w2 w3, same_ids w1 w2 → same_ids w2 w3 → same_ids w1 w3).
  { unfold same_ids. congruence. }
  assert (Hb : ∀ message w, same_ids w (after_broadcast message w)).
  { intros. unfold same_ids. by autorewrite with world. }
  assert (Hstatus : ∀ i u w, same_ids w (set_db_bots (update_one i (apply_set u)) w)).
  { intros. unfold same_ids. simpl. by apply ids_update_one. }
  assert (Hfields : ∀ i u w, same_ids w (set_db_bots (update_one i (apply_update u)) w)).
  { intros. unfold same_ids. simpl. by apply ids_update_one. }
  change (same_ids w (serve r w)).
  destruct r; simpl.
  - by destruct (Hcreate bot_data).
  - by apply respects_update_bot.
  - by apply respects_add_bot_log.
  - by apply respects_start_bot.
  - by apply respects_stop_bot.
  - by apply respects_restart_bot.
  - by destruct (Hdelete bot_id0).
  - by apply respects_get_bots.
  - by apply respects_get_bot.
  - by apply respects_websocket_pass.
Qed.

(** Witness of [serve_same_ids]: a restart of the demo bot. *)
Lemma serve_same_ids_witness :
  id <$> db_bots (serve (RestartBot "b1") demo_world) = id <$> db_bots demo_world.
Proof.
  apply (serve_same_ids (RestartBot "b1") demo_world); intros; discriminate.
Defined.

(** X2: the log store is append-only for every request but the deletion of
    a bot: whatever the store and the connections do, the entries that
    were there before the request are still there after it, in front and
    in their order. *)
Theorem serve_logs_grow (r : Request) (w : World) :
  (∀ i, r ≠ DeleteBot i) →
  db_logs w `prefix_of` db_logs (serve r w).
Proof.
  intros Hdelete.
  assert (Hrefl : ∀ w, logs_grow w w) by (intros; unfold logs_grow; reflexivity).
  assert (Htrans : ∀ w1 w2 w3, logs_grow w1 w2 → logs_grow w2 w3 → logs_grow w1 w3).
  { unfold logs_grow. intros. by etrans. }
  assert (Hb : ∀ message w, logs_grow w (after_broadcast message w)).
  { intros. unfold logs_grow. by autorewrite with world. }
  assert (Hlog : ∀ e w, logs_grow w (set_db_logs (fun l => l ++ [e]) w)).
  { intros. unfold logs_grow. simpl. by apply prefix_app_r. }
  change (logs_grow w (serve r w)).
  destruct r; simpl.
  - by apply respects_create_bot.
  - by apply respects_update_bot.
  - by apply respects_add_bot_log.
  - by apply respects_start_bot.
  - by apply respects_stop_bot.
  - by apply respects_restart_bot.
  - by destruct (Hdelete bot_id0).
  - by apply respects_get_bots.
  - by apply respects_get_bot.
  - by apply respects_websocket_pass.
Qed.

(** Witness of [serve_logs_grow]: a stop of the started demo bot. *)
Lemma serve_logs_grow_witness :
  db_logs demo_started `prefix_of` db_logs (serve (StopBot "b1") demo_started).
Proof.
  apply (serve_logs_grow (StopBot "b1") demo_started); intros; discriminate.
Defined.

(** X3: no request touches the operating system: the table of processes
    and the inherited environment are the same after any request as
    before; in particular no request ever creates or ends a process. *)
Theorem serve_same_host (r : Request) (w : World) :
  processes (serve r w) = processes w ∧ os_environ (serve r w) = os_environ w.
Proof.
  assert (Hrefl : ∀ w, same_host w w) by done.
  assert (Htrans : ∀ w1 w2 w3, same_host w1 w2 → same_host w2 w3 → same_host w1 w3).
  { unfold same_host. intros w1 w2 w3 [-> ->] [-> ->]. done. }
  assert (Hb : ∀ message w, same_host w (after_broadcast message w)).
  { intros. unfold same_host. by autorewrite with world. }
  change (same_host w (serve r w)).
  destruct r; simpl.
  - by apply respects_create_bot.
  - by apply respects_update_bot.
  - by apply respects_add_bot_log.
  - by apply respects_start_bot.
  - by apply respects_stop_bot.
  - by apply respects_restart_bot.
  - by apply respects_delete_bot.
  - by apply respects_get_bots.
  - by apply respects_get_bot.
  - by apply respects_websocket_pass.
Qed.

(** X4: no request adds a connection to the manager's list: after any
    request the list is what is left of the list before, in the same
    order (a request drops connections only, through the broadcasts it
    makes). *)
Theorem serve_no_new_listener (r : Request) (w : World) :
  active_connections (serve r w) `sublist_of` active_connections w.
Proof.
  assert (Hrefl : ∀ w, no_new_listener w w)
    by (intros; unfold no_new_listener; reflexivity).
  assert (Htrans : ∀ w1 w2 w3,
            no_new_listener w1 w2 → no_new_listener w2 w3 → no_new_listener w1 w3).
  { unfold no_new_listener. intros. by etrans. }
  assert (Hb : ∀ message w, no_new_listener w (after_broadcast message w)).
  { intros. unfold no_new_listener, after_broadcast, broadcast.
    apply broadcast_from_sublist. }
  change (no_new_listener w (serve r w)).
  destruct r; simpl.
  - by apply respects_create_bot.
  - by apply respects_update_bot.
  - by apply respects_add_bot_log.
  - by apply respects_start_bot.
  - by apply respects_stop_bot.
  - by apply respects_restart_bot.
  - by apply respects_delete_bot.
  - by apply respects_get_bots.
  - by apply respects_get_bot.
  - by apply respects_websocket_pass.
Qed.

(** ** More on the connection manager *)

Lemma list_remove_None x l : ws_id x ∉ ws_id <$> l → list_remove x l = None.
Proof.
  induction l as [|y rest IH]; [done|].
  rewrite fmap_cons, not_elem_of_cons. intros [Hne Hrest]. simpl.
  rewrite decide_False by done. by rewrite IH.
Qed.

Lemma list_remove_snoc x l : ws_id x ∉ ws_id <$> l → list_remove x (l ++ [x]) = Some l.
Proof.
  intros Hx. rewrite (list_remove_middle l x []) by done. by rewrite app_nil_r.
Qed.

(** X5: [disconnect] of a connection that is not in the list raises the
    [ValueError] of [list.remove] and leaves the world as it was; and
    [connect] followed by [disconnect] of such a connection gives back
    the world as it was. *)
Theorem disconnect_absent (websocket : WebSocket) (w : World) :
  ws_id websocket ∉ ws_id <$> active_connections w →
  disconnect websocket w =
    (Raise (ValueError "list.remove(x): x not in list"), w) ∧
  disconnect websocket (snd (connect websocket w)) = (Ok tt, w).
Proof.
  intros Habsent. unfold disconnect, remove_connection, connect. simpl. split.
  - by rewrite list_remove_None.
  - rewrite list_remove_snoc by done. f_equal. by destruct w.
Qed.

(** Witness of [disconnect_absent]: a fourth listener on [demo_listeners]. *)
Lemma disconnect_absent_witness :
  disconnect (mkWebSocket 3 true) demo_listeners =
    (Raise (ValueError "list.remove(x): x not in list"), demo_listeners) ∧
  disconnect (mkWebSocket 3 true) (snd (connect (mkWebSocket 3 true) demo_listeners)) =
    (Ok tt, demo_listeners).
Proof.
  apply (disconnect_absent (mkWebSocket 3 true) demo_listeners).
  apply (bool_decide_unpack _). vm_compute. exact I.
Defined.

(** X6: once a broadcast has dropped a connection whose [send_text]
    failed, [disconnect] of that connection, which is what the endpoint
    does when it learns that its client has gone, raises the [ValueError]
    of [list.remove]. *)
Theorem disconnect_after_failed_send (message : Message) (w : World)
    (c : WebSocket) (trace : list SendEvent) :
  NoDup (ws_id <$> active_connections w) →
  send_log (snd (broadcast message w)) = send_log w ++ trace →
  mkSend (ws_id c) message false ∈ trace →
  disconnect c (snd (broadcast message w)) =
    (Raise (ValueError "list.remove(x): x not in list"), snd (broadcast message w)).
Proof.
  intros Hnd Htrace Hfail. fold (after_broadcast message w) in *.
  destruct (after_broadcast_walk message w Hnd) as [Hconns Hsends].
  rewrite Hsends in Htrace. apply app_inv_head in Htrace. subst trace.
  apply elem_of_events in Hfail.
  unfold disconnect, remove_connection. rewrite list_remove_None; [done|].
  rewrite Hconns. by apply walk_failed_removed.
Qed.

(** Witness of [disconnect_after_failed_send]: the second of the three
    listeners. *)
Lemma disconnect_after_failed_send_witness :
  disconnect (mkWebSocket 1 false) (snd (broadcast demo_message demo_listeners)) =
    (Raise (ValueError "list.remove(x): x not in list"),
     snd (broadcast demo_message demo_listeners)).
Proof.
  apply (disconnect_after_failed_send demo_message demo_listeners
           (mkWebSocket 1 false)
           [mkSend 0 demo_message true; mkSend 1 demo_message false]).
  - apply (bool_decide_unpack _). vm_compute. exact I.
  - vm_compute. reflexivity.
  - right. left.
Defined.

Lemma broadcast_from_all_open fuel message K R w :
  active_connections w = K ++ R →
  Forall (fun c => ws_open c = true) R →
  (length R ≤ fuel)%nat →
  broadcast_from fuel (length K) message w =
    (Ok tt, set_send_log
              (fun l => l ++ ((fun c => mkSend (ws_id c) message true) <$> R)) w).
Proof.
  revert K R w. induction fuel as [|fuel IH]; intros K R w Hconns Hopen Hlen.
  - destruct R; [|simpl in Hlen; lia]. simpl. unfold ret. f_equal.
    destruct w; unfold set_send_log; simpl. by rewrite app_nil_r.
  - destruct R as [|c R'].
    + simpl. rewrite Hconns, lookup_ge_None_2 by (rewrite app_nil_r; lia).
      f_equal. destruct w; unfold set_send_log; simpl. by rewrite app_nil_r.
    + cbn [broadcast_from]. rewrite Hconns, list_lookup_middle by done.
      apply Forall_cons in Hopen as [Hc Hopen].
      unfold bind, try_except, send_text. rewrite Hc.
      specialize (IH (K ++ [c]) R'
                    (set_send_log (fun l => l ++ [mkSend (ws_id c) message true]) w)).
      rewrite length_app, Nat.add_1_r in IH.
      rewrite IH; [ | by simpl; rewrite Hconns, <- app_assoc
                    | done | simpl in Hlen; lia ].
      f_equal. destruct w; unfold set_send_log; simpl.
      by rewrite <- app_assoc.
Qed.

(** X7: when every connection is open, a broadcast sends the message to
    each of them once, in the order of the list, and changes nothing else:
    the list of connections is as it was. *)
Theorem broadcast_all_open (message : Message) (w : World) :
  Forall (fun c => ws_open c = true) (active_connections w) →
  broadcast message w =
    (Ok tt, set_send_log
              (fun l => l ++ ((fun c => mkSend (ws_id c) message true)
                              <$> active_connections w)) w).
Proof.
  intros Hopen. unfold broadcast.
  exact (broadcast_from_all_open _ message [] (active_connections w) w
           eq_refl Hopen (le_n _)).
Qed.

(** Witness of [broadcast_all_open]: two open listeners. *)
Lemma broadcast_all_open_witness :
  broadcast demo_message demo_audience =
    (Ok tt, set_send_log
              (fun l => l ++ ((fun c => mkSend (ws_id c) demo_message true)
                              <$> active_connections demo_audience))
              demo_audience).
Proof.
  apply (broadcast_all_open demo_message demo_audience).
  repeat constructor.
Defined.

Lemma walk_open_kept l c :
  c ∈ l → ws_open c = true → c ∈ (walk l).1.
Proof.
  induction l as [|x rest Hopen IH|x Hopen|x y rest Hopen IH] using walk_ind; simpl.
  - by intros ?%elem_of_nil.
  - rewrite Hopen. destruct (walk rest) as [kept visited]. simpl in *.
    intros [->|Hin]%elem_of_cons Hc; [left|right; auto].
  - rewrite Hopen. simpl.
    intros [->|?%elem_of_nil]%elem_of_cons Hc; [congruence|done].
  - rewrite Hopen. destruct (walk rest) as [kept visited]. simpl in *.
    intros [->|[->|Hin]%elem_of_cons]%elem_of_cons Hc;
      [congruence|left|right; auto].
Qed.

Lemma walk_first_closed K c R :
  Forall (fun x => ws_open x = true) K → ws_open c = false →
  (ws_id c, false) ∈ (walk (K ++ c :: R)).2.
Proof.
  intros HK Hc. induction HK as [|x K Hx HK IH]; simpl.
  - rewrite Hc. destruct R as [|c' R']; [left|].
    destruct (walk R') as [kept visited]. left.
  - rewrite Hx. destruct (walk (K ++ c :: R)) as [kept visited]. simpl in *.
    by right.
Qed.

Lemma walk_length l :
  (length (walk l).1 +
   length (filter (fun v => v.2 = false) (walk l).2))%nat = length l.
Proof.
  induction l as [|x rest Hopen IH|x Hopen|x y rest Hopen IH] using walk_ind; simpl.
  - done.
  - rewrite Hopen. destruct (walk rest) as [kept visited]. simpl in *.
    rewrite filter_cons_False by (simpl; congruence). lia.
  - rewrite Hopen. simpl. done.
  - rewrite Hopen. destruct (walk rest) as [kept visited]. simpl in *.
    try rewrite filter_cons_True by done. simpl. lia.
Qed.

(** X8: a broadcast over distinct connections never drops a connection
    that is open, and it drops exactly one connection for each
    [send_text] that failed: the list afterwards is shorter by the number
    of failed sends. *)
Theorem broadcast_keeps_open (message : Message) (w : World) :
  NoDup (ws_id <$> active_connections w) →
  (∀ c, c ∈ active_connections w → ws_open c = true →
        c ∈ active_connections (snd (broadcast message w))) ∧
  ∃ trace,
    send_log (snd (broadcast message w)) = send_log w ++ trace ∧
    (length (active_connections (snd (broadcast message w))) +
     length (filter (fun ev => sent_ok ev = false) trace))%nat =
    length (active_connections w).
Proof.
  intros Hnd. fold (after_broadcast message w).
  destruct (after_broadcast_walk message w Hnd) as [-> ->]. split.
  - intros c Hin Hopen. by apply walk_open_kept.
  - eexists. split; [reflexivity|].
    etrans; [|apply (walk_length (active_connections w))]. f_equal.
    unfold events. generalize (walk (active_connections w)).2. intros visited.
    induction visited as [|[i b] visited IH]; [done|].
    rewrite fmap_cons. destruct b.
    + by rewrite !filter_cons_False by (simpl; congruence).
    + rewrite !filter_cons_True by done. simpl. by rewrite IH.
Qed.

(** Witness of [broadcast_keeps_open]: of the three listeners, one send
    fails and two connections are left. *)
Lemma broadcast_keeps_open_witness :
  (∀ c, c ∈ active_connections demo_listeners → ws_open c = true →
        c ∈ active_connections (snd (broadcast demo_message demo_listeners))) ∧
  ∃ trace,
    send_log (snd (broadcast demo_message demo_listeners)) =
      send_log demo_listeners ++ trace ∧
    (length (active_connections (snd (broadcast demo_message demo_listeners))) +
     length (filter (fun ev => sent_ok ev = false) trace))%nat =
    length (active_connections demo_listeners).
Proof.
  apply (broadcast_keeps_open demo_message demo_listeners).
  apply (bool_decide_unpack _). vm_compute. exact I.
Defined.

(** X9: a broadcast over distinct connections always reaches the first
    closed connection of the list: its [send_text] is called and fails,
    and the connection is gone afterwards.  So each broadcast removes at
    least one closed connection as long as there is one. *)
Theorem broadcast_drops_first_closed (message : Message) (w : World)
    (K R : list WebSocket) (c : WebSocket) :
  NoDup (ws_id <$> active_connections w) →
  active_connections w = K ++ c :: R →
  Forall (fun x => ws_open x = true) K →
  ws_open c = false →
  mkSend (ws_id c) message false ∈ send_log (snd (broadcast message w)) ∧
  (ws_id c ∉ ws_id <$> active_connections (snd (broadcast message w))) ∧
  (length (active_connections (snd (broadcast message w)))
   < length (active_connections w))%nat.
Proof.
  intros Hnd Hconns HK Hc. fold (after_broadcast message w).
  destruct (after_broadcast_walk message w Hnd) as [-> ->].
  assert (Hvisited : (ws_id c, false) ∈ (walk (active_connections w)).2).
  { rewrite Hconns. by apply walk_first_closed. }
  split; [|split].
  - apply elem_of_app. right. by apply elem_of_events.
  - by apply walk_failed_removed.
  - pose proof (walk_length (active_connections w)) as Hlen.
    assert (0 < length (filter (fun v => v.2 = false)
                          (walk (active_connections w)).2))%nat; [|lia].
    assert (Hin : (ws_id c, false) ∈
              filter (fun v => v.2 = false) (walk (active_connections w)).2).
    { by apply list_elem_of_filter. }
    destruct (filter _ _); [by apply elem_of_nil in Hin|simpl; lia].
Qed.

(** Witness of [broadcast_drops_first_closed]: the second of the three
    listeners is the first closed one. *)
Lemma broadcast_drops_first_closed_witness :
  mkSend 1 demo_message false ∈
    send_log (snd (broadcast demo_message demo_listeners)) ∧
  (1%nat ∉ ws_id <$> active_connections (snd (broadcast demo_message demo_listeners))) ∧
  (length (active_connections (snd (broadcast demo_message demo_listeners)))
   < length (active_connections demo_listeners))%nat.
Proof.
  apply (broadcast_drops_first_closed demo_message demo_listeners
           [mkWebSocket 0 true] [mkWebSocket 2 true] (mkWebSocket 1 false)).
  - apply (bool_decide_unpack _). vm_compute. exact I.
  - reflexivity.
  - repeat constructor.
  - reflexivity.
Defined.

(** ** Logging *)

(** Every send of a broadcast carries the message of that broadcast. *)
Lemma broadcast_from_trace fuel i message w :
  ∃ trace,
    send_log (snd (broadcast_from fuel i message w)) = send_log w ++ trace ∧
    Forall (fun ev => sent_text ev = message) trace.
Proof.
  revert i w. induction fuel as [|fuel IH]; intros i w; simpl.
  - exists []. by rewrite app_nil_r.
  - destruct (active_connections w !! i) as [c|] eqn:Hi.
    + unfold bind, try_except, send_text. destruct (ws_open c) eqn:Hopen.
      * destruct (IH (S i) (set_send_log
                     (fun l => l ++ [mkSend (ws_id c) message true]) w))
          as (trace & -> & Hall).
        exists (mkSend (ws_id c) message true :: trace). simpl.
        rewrite <- app_assoc. split; [done|]. by constructor.
      * unfold remove_connection. simpl.
        destruct (list_remove_lookup _ _ _ Hi) as (l' & -> & _).
        destruct (IH (S i) (set_active_connections (fun _ => l')
                     (set_send_log
                        (fun l => l ++ [mkSend (ws_id c) message false]) w)))
          as (trace & -> & Hall).
        exists (mkSend (ws_id c) message false :: trace). simpl.
        rewrite <- app_assoc. split; [done|]. by constructor.
    + exists []. by rewrite app_nil_r.
Qed.

Lemma after_broadcast_trace message w :
  ∃ trace,
    send_log (after_broadcast message w) = send_log w ++ trace ∧
    Forall (fun ev => sent_text ev = message) trace.
Proof. apply broadcast_from_trace. Qed.

(** X10: [log_message] stores before it sends.  When the store refuses
    the entry, the call raises the store's error and nothing is stored
    and nothing is sent to any listener; when the store accepts it, the
    call returns, exactly this one entry is appended to the log store,
    and every message sent in the call is that entry. *)
Theorem log_message_stores_then_sends (bid lv msg src : string) (w : World) :
  (∀ text, next_fault (faults w) = Some text →
     fst (log_message bid lv msg src w) = Raise (Exception text) ∧
     db_logs (snd (log_message bid lv msg src w)) = db_logs w ∧
     send_log (snd (log_message bid lv msg src w)) = send_log w ∧
     active_connections (snd (log_message bid lv msg src w)) = active_connections w) ∧
  (next_fault (faults w) = None →
     let e := mkLogEntry (uuid_of (uuid_ctr w)) bid (clock w) lv msg src in
     fst (log_message bid lv msg src w) = Ok tt ∧
     db_logs (snd (log_message bid lv msg src w)) = db_logs w ++ [e] ∧
     ∃ trace,
       send_log (snd (log_message bid lv msg src w)) = send_log w ++ trace ∧
       Forall (fun ev => sent_text ev = MsgLog e) trace).
Proof.
  split.
  - intros text Hnext. by rewrite log_message_eq, Hnext.
  - intros Hnext e. rewrite log_message_eq, Hnext. simpl.
    split; [done|]. split; [by autorewrite with world|].
    match goal with
    | |- context [after_broadcast ?m ?w2] =>
        destruct (after_broadcast_trace m w2) as (trace & Htrace & Hall)
    end.
    exists trace. by rewrite Htrace.
Qed.

(** Witness of [log_message_stores_then_sends]: the store of [demo_outage]
    refuses the next write, the one of [demo_listeners] accepts it. *)
Lemma log_message_stores_then_sends_witness :
  (fst (log_message "b1" "INFO" "hello" "bot" demo_outage) =
     Raise (Exception "replica set member is not running") ∧
   db_logs (snd (log_message "b1" "INFO" "hello" "bot" demo_outage)) =
     db_logs demo_outage ∧
   send_log (snd (log_message "b1" "INFO" "hello" "bot" demo_outage)) =
     send_log demo_outage ∧
   active_connections (snd (log_message "b1" "INFO" "hello" "bot" demo_outage)) =
     active_connections demo_outage) ∧
  (let e := mkLogEntry (uuid_of (uuid_ctr demo_listeners)) "b1"
                       (clock demo_listeners) "INFO" "hello" "bot" in
   fst (log_message "b1" "INFO" "hello" "bot" demo_listeners) = Ok tt ∧
   db_logs (snd (log_message "b1" "INFO" "hello" "bot" demo_listeners)) =
     db_logs demo_listeners ++ [e] ∧
   ∃ trace,
     send_log (snd (log_message "b1" "INFO" "hello" "bot" demo_listeners)) =
       send_log demo_listeners ++ trace ∧
     Forall (fun ev => sent_text ev = MsgLog e) trace).
Proof.
  split.
  - apply (log_message_stores_then_sends "b1" "INFO" "hello" "bot" demo_outage).
    vm_compute. reflexivity.
  - apply (log_message_stores_then_sends "b1" "INFO" "hello" "bot" demo_listeners).
    vm_compute. reflexivity.
Defined.

(** ** Creating and editing a bot *)

Lemma find_one_snoc_fresh i b docs :
  find_one i docs = None → id b = i → find_one i (docs ++ [b]) = Some b.
Proof.
  intros Hnone Hid. induction docs as [|x rest IH]; simpl in *.
  - by rewrite decide_True.
  - destruct (decide (id x = i)); [done|]. by apply IH.
Qed.

(** X11: a [create_bot] that returns has appended one record to the
    store, Stopped and without a pid, under a new identifier, and one
    info entry "Bot '..' created" to the log store; it returns that
    record, and a lookup by its identifier finds it when no older record
    has that identifier.  It returns whenever no store write fails. *)
Theorem create_bot_stores (bot_data : BotCreate) (w : World) :
  (no_faults w → ∃ bot w', create_bot bot_data w = (Ok bot, w')) ∧
  (∀ bot w', create_bot bot_data w = (Ok bot, w') →
     bot = new_bot (uuid_of (uuid_ctr w)) (clock w) bot_data ∧
     status bot = STOPPED ∧ pid bot = None ∧
     db_bots w' = db_bots w ++ [bot] ∧
     db_logs w' =
       db_logs w ++
         [mkLogEntry (uuid_of (S (uuid_ctr w))) (id bot) (clock w) "INFO"
            ("Bot '" +:+ bc_name bot_data +:+ "' created") "api"] ∧
     (find_one (id bot) (db_bots w) = None →
      fst (get_bot_by_id (id bot) w') = Ok (Some bot))).
Proof.
  split.
  - intros Hnf. unfold no_faults in Hnf. unfold create_bot.
    run. no_fault Hnf. run. no_fault Hnf. run. eauto.
  - intros bot w'. unfold create_bot.
    run_all; try discriminate.
    intros [= <- <-]. proj.
    repeat split; try done.
    intros Hfresh. f_equal. by apply find_one_snoc_fresh.
Qed.

(** Witness of [create_bot_stores]: the demo bot on the empty server. *)
Lemma create_bot_stores_witness :
  ∃ bot w', create_bot demo_data demo_empty = (Ok bot, w').
Proof.
  destruct (create_bot_stores demo_data demo_empty) as [Hret _].
  apply Hret. constructor.
Defined.

(** X12: [create_bot] is not all or nothing.  When the store refuses its
    first write the call raises and nothing is stored; when the store
    takes the record and then refuses the log entry, the call raises
    too, and yet the record is in the store, without its "created"
    entry. *)
Theorem create_bot_half_done (bot_data : BotCreate) (w : World) (text : string) :
  (next_fault (faults w) = Some text →
   fst (create_bot bot_data w) = Raise (Exception text) ∧
   db_bots (snd (create_bot bot_data w)) = db_bots w ∧
   db_logs (snd (create_bot bot_data w)) = db_logs w) ∧
  (next_fault (faults w) = None → next_fault (drop 1 (faults w)) = Some text →
   fst (create_bot bot_data w) = Raise (Exception text) ∧
   db_bots (snd (create_bot bot_data w)) =
     db_bots w ++ [new_bot (uuid_of (uuid_ctr w)) (clock w) bot_data] ∧
   db_logs (snd (create_bot bot_data w)) = db_logs w).
Proof.
  split.
  - intros Hnext. unfold create_bot. run. rewrite Hnext. done.
  - intros Hnext1 Hnext2. unfold create_bot. run. rewrite Hnext1. run.
    rewrite Hnext2. done.
Qed.

(** Witness of [create_bot_half_done]: the second write is refused. *)
Lemma create_bot_half_done_witness :
  fst (create_bot demo_data demo_second_write_fails) =
    Raise (Exception "connection reset") ∧
  db_bots (snd (create_bot demo_data demo_second_write_fails)) =
    db_bots demo_second_write_fails ++
      [new_bot (uuid_of (uuid_ctr demo_second_write_fails))
               (clock demo_second_write_fails) demo_data] ∧
  db_logs (snd (create_bot demo_data demo_second_write_fails)) =
    db_logs demo_second_write_fails.
Proof.
  destruct (create_bot_half_done demo_data demo_second_write_fails
              "connection reset") as [_ H].
  apply H; vm_compute; reflexivity.
Defined.

Lemma lifecycle_update_one i u docs :
  lifecycle <$> update_one i (apply_update u) docs = lifecycle <$> docs.
Proof.
  induction docs as [|b rest IH]; simpl; [done|].
  destruct (decide (id b = i)); rewrite !fmap_cons; [done|by f_equal].
Qed.

(** X13: [update_bot] with an unknown identifier raises the 404 error and
    changes nothing; with an update that gives no field it writes
    nothing, logs nothing and returns the record as it is. *)
Theorem update_bot_nothing_to_do (bid : string) (bot_update : BotUpdate) (w : World) :
  (find_one bid (db_bots w) = None →
   update_bot bid bot_update w = (Raise (HTTPException 404 "Bot not found"), w)) ∧
  (∀ bot, find_one bid (db_bots w) = Some bot → some_field bot_update = false →
   update_bot bid bot_update w = (Ok (Some bot), w)).
Proof.
  split.
  - intros Hfind. unfold update_bot, bind, get_bot_by_id. by rewrite Hfind.
  - intros bot Hfind Hnone. unfold update_bot, bind, get_bot_by_id.
    rewrite Hfind, Hnone. simpl. by rewrite ?Hfind.
Qed.

(** Witness of [update_bot_nothing_to_do]: an empty update of the demo
    bot. *)
Lemma update_bot_nothing_to_do_witness :
  update_bot "b1" demo_no_update demo_world = (Ok (Some demo_bot), demo_world).
Proof.
  destruct (update_bot_nothing_to_do "b1" demo_no_update demo_world) as [_ H].
  apply (H demo_bot); reflexivity.
Defined.

(** X14: [update_bot] never touches the lifecycle of any record:
    identifier, type, status, pid and the three timestamps of every
    record are the same after the call as before, whatever the update
    holds and whatever the store does.  When it returns on an update that
    gives some field, it returns the record with the given fields
    replaced, and has written one info entry "Bot '..' updated" under the
    old name. *)
Theorem update_bot_keeps_lifecycle (bid : string) (bot_update : BotUpdate) (w : World) :
  lifecycle <$> db_bots (snd (update_bot bid bot_update w)) = lifecycle <$> db_bots w ∧
  (∀ bot r w', find_one bid (db_bots w) = Some bot →
     some_field bot_update = true →
     update_bot bid bot_update w = (Ok r, w') →
     r = Some (apply_update bot_update bot) ∧
     db_logs w' =
       db_logs w ++
         [mkLogEntry (uuid_of (uuid_ctr w)) bid (clock w) "INFO"
            ("Bot '" +:+ name bot +:+ "' updated") "api"]).
Proof.
  split.
  - unfold update_bot. unfold bind at 1. unfold get_bot_by_id at 1.
    destruct (find_one bid (db_bots w)) as [bot|]; [|done].
    destruct (some_field bot_update); [|done].
    run_all; proj; try done; by rewrite lifecycle_update_one.
  - intros bot r w' Hfind Hsome. unfold update_bot.
    unfold bind at 1. unfold get_bot_by_id at 1. rewrite Hfind, Hsome.
    run_all; try discriminate.
    intros [= <- <-]. proj. split; [|done].
    by rewrite find_one_update_one, decide_True, Hfind.
Qed.

(** Witness of [update_bot_keeps_lifecycle]: renaming the started bot. *)
Lemma update_bot_keeps_lifecycle_witness :
  lifecycle <$> db_bots (snd (update_bot "b1" demo_rename demo_started)) =
  lifecycle <$> db_bots demo_started.
Proof.
  apply (update_bot_keeps_lifecycle "b1" demo_rename demo_started).
Defined.

(** ** Reading bots *)

(** X15: [get_bot] on a running bot whose process is gone answers with a
    record that says Stopped and still carries the pid of the dead
    process, while the record it has just written to the store has no
    pid: the answer and the store disagree.  (The store write is assumed
    to succeed.) *)
Theorem get_bot_stale_pid (bid : string) (w : World) (bot : Bot) (p : Z) :
  find_one bid (db_bots w) = Some bot →
  status bot = RUNNING → pid bot = Some p → p ≠ 0 →
  processes w !! p = None →
  next_fault (faults w) = None →
  ∃ w', get_bot bid w = (Ok (with_status bot STOPPED), w') ∧
        pid (with_status bot STOPPED) = Some p ∧
        pid <$> find_one bid (db_bots w') = Some None ∧
        status <$> find_one bid (db_bots w') = Some STOPPED.
Proof.
  intros Hfind Hrun Hpid Hp Hproc Hnext.
  unfold get_bot, bind, get_bot_by_id. rewrite Hfind.
  unfold refresh_stats. rewrite bool_decide_true by done. rewrite Hpid. simpl.
  rewrite (proj2 (Z.eqb_neq p 0)) by done. simpl.
  unfold bind, get_process_stats. rewrite Hproc. simpl.
  rewrite update_bot_status_eq, Hnext. simpl.
  eexists. split; [reflexivity|]. simpl. split; [done|].
  apply find_one_elem_of in Hfind as Hid. destruct Hid as [_ <-].
  by rewrite find_one_update_one_eq, Hfind.
Qed.

(** Witness of [get_bot_stale_pid]: the started bot, which has no
    process. *)
Lemma get_bot_stale_pid_witness :
  ∃ w', get_bot "b1" demo_started = (Ok (with_status demo_running_bot STOPPED), w') ∧
        pid (with_status demo_running_bot STOPPED) = Some 5242 ∧
        pid <$> find_one "b1" (db_bots w') = Some None ∧
        status <$> find_one "b1" (db_bots w') = Some STOPPED.
Proof.
  apply (get_bot_stale_pid "b1" demo_started demo_running_bot 5242).
  - vm_compute. reflexivity.
  - reflexivity.
  - reflexivity.
  - discriminate.
  - vm_compute. reflexivity.
  - vm_compute. reflexivity.
Defined.



Lemma refresh_stats_id bot w bot' w' :
  refresh_stats bot w = (Ok bot', w') → id bot' = id bot.
Proof.
  unfold refresh_stats.
  destruct (bool_decide (status bot = RUNNING) && truthy (pid bot));
    [|by intros [= <- _]].
  unfold bind, get_process_stats.
  destruct (processes w !! default 0 (pid bot)); simpl.
  - by intros [= <- _].
  - rewrite update_bot_status_eq. destruct (next_fault (faults w)); [done|].
    simpl. by intros [= <- _].
Qed.

Lemma get_bots_loop_ids bots w bots' w' :
  get_bots_loop bots w = (Ok bots', w') → id <$> bots' = id <$> bots.
Proof.
  revert w bots' w'. induction bots as [|bot rest IH]; intros w bots' w'; simpl.
  - by intros [= <- _].
  - unfold bind at 1. destruct (refresh_stats bot w) as [[b1|e] w1] eqn:Hstep; [|done].
    unfold bind at 1. destruct (get_bots_loop rest w1) as [[r1|e] w2] eqn:Hloop; [|done].
    intros [= <- _]. rewrite !fmap_cons. f_equal.
    + by eapply refresh_stats_id.
    + by eapply IH.
Qed.

(** X17: [get_bots] answers with the first 1000 records of the store, in
    the order of the store: a listing that returns holds one record for
    each of them, under the same identifiers, and never more than 1000;
    the records behind the thousandth are left out. *)
Theorem get_bots_first_thousand (w : World) (bots : list Bot) (w' : World) :
  get_bots w = (Ok bots, w') →
  id <$> bots = take 1000 (id <$> db_bots w) ∧ (length bots ≤ 1000)%nat.
Proof.
  unfold get_bots, bind. intros Hloop.
  apply get_bots_loop_ids in Hloop.
  assert (Hids : id <$> bots = take 1000 (id <$> db_bots w)).
  { by rewrite Hloop, fmap_take. }
  split; [done|].
  rewrite <- (length_fmap id), Hids, length_take. lia.
Qed.

(** Witness of [get_bots_first_thousand]: the listing of [demo_started]. *)
Lemma get_bots_first_thousand_witness :
  id <$> demo_listing = take 1000 (id <$> db_bots demo_started) ∧
  (length demo_listing ≤ 1000)%nat.
Proof.
  apply (get_bots_first_thousand demo_started demo_listing
           (snd (get_bots demo_started))).
  vm_compute. reflexivity.
Defined.

(** ** Failures and compositions of the lifecycle *)

(** X18: a [start_bot] or a [stop_bot] that raises the 500 error has
    recorded the failure first: the record is in Error, and the last
    entry of the log store is an error entry of that bot whose message is
    the detail of the 500, namely "Failed to start bot: " or "Failed to
    stop bot: " followed by the text of the underlying error. *)
Theorem failed_lifecycle_leaves_error (bid d : string) (w w' : World) :
  (start_bot bid w = (Raise (HTTPException 500 d), w') →
   ∃ text stamp now,
     d = "Failed to start bot: " +:+ text ∧
     status <$> find_one bid (db_bots w') = Some ERROR ∧
     last (db_logs w') = Some (mkLogEntry stamp bid now "ERROR" d "system")) ∧
  (stop_bot bid w = (Raise (HTTPException 500 d), w') →
   ∃ text stamp now,
     d = "Failed to stop bot: " +:+ text ∧
     status <$> find_one bid (db_bots w') = Some ERROR ∧
     last (db_logs w') = Some (mkLogEntry stamp bid now "ERROR" d "system")).
Proof.
  split.
  - unfold start_bot. unfold bind at 1. unfold get_bot_by_id.
    destruct (find_one bid (db_bots w)) as [bot|] eqn:Hfind; [|by intros [=]].
    destruct (bool_decide (status bot = RUNNING)); [by intros [=]|].
    run_all; try discriminate;
      intros [= <- <-]; eexists _, _, _; (split; [reflexivity|]); proj;
      rewrite !find_one_update_one_eq, Hfind; (split; [done|]); apply last_snoc.
  - unfold stop_bot. unfold bind at 1. unfold get_bot_by_id.
    destruct (find_one bid (db_bots w)) as [bot|] eqn:Hfind; [|by intros [=]].
    destruct (bool_decide (status bot = RUNNING)); simpl; [|by intros [=]].
    run_all; try discriminate;
      intros [= <- <-]; eexists _, _, _; (split; [reflexivity|]); proj;
      rewrite !find_one_update_one_eq, Hfind; (split; [done|]); apply last_snoc.
Qed.

(** Witness of [failed_lifecycle_leaves_error]: the start whose last log
    write is refused. *)
Lemma failed_lifecycle_leaves_error_witness :
  let w := serve (CreateBot demo_data) demo_sixth_write_fails in
  ∃ text stamp now,
    "Failed to start bot: connection reset" = "Failed to start bot: " +:+ text ∧
    status <$> find_one "uuid-0" (db_bots (snd (start_bot "uuid-0" w))) = Some ERROR ∧
    last (db_logs (snd (start_bot "uuid-0" w))) =
      Some (mkLogEntry stamp "uuid-0" now "ERROR"
              "Failed to start bot: connection reset" "system").
Proof.
  intros w.
  destruct (failed_lifecycle_leaves_error "uuid-0"
              "Failed to start bot: connection reset" w (snd (start_bot "uuid-0" w)))
    as [H _].
  apply H. vm_compute. reflexivity.
Defined.

(** X19: starting a bot and then stopping it, with a store that does not
    fail, gives the record back as it was, Stopped and without a pid,
    but for its two timestamps, both set to the time of the calls; the
    records of the other bots are as they were. *)
Theorem start_then_stop (bid : string) (w : World) (bot : Bot) :
  no_faults w →
  find_one bid (db_bots w) = Some bot → status bot ≠ RUNNING →
  ∃ w1 w2,
    start_bot bid w =
      (Ok (Reply_message_pid "Bot started successfully" (fake_pid_of w)), w1) ∧
    stop_bot bid w1 = (Ok (Reply_message "Bot stopped successfully"), w2) ∧
    find_one bid (db_bots w2) =
      Some (mkBot (id bot) (name bot) (description bot) (bot_type bot) STOPPED
                  (port bot) (command bot) (working_directory bot)
                  (environment_vars bot) None (created_at bot)
                  (Some (clock w)) (Some (clock w))
                  (cpu_usage bot) (memory_usage bot) (uptime bot)) ∧
    (∀ j, j ≠ bid → find_one j (db_bots w2) = find_one j (db_bots w)) ∧
    length (db_logs w2) = (length (db_logs w) + 4)%nat.
Proof.
  intros Hnf Hfind Hst.
  destruct (start_bot_returns _ _ _ Hnf Hfind Hst) as (w1 & Hstart & Hnf1).
  destruct (start_bot_ok_inv _ _ _ _ Hstart)
    as (b & Hb & _ & _ & Hbots1 & Hlogs1 & Hclock1 & _).
  assert (b = bot) as -> by congruence.
  assert (Hfind1 : find_one bid (db_bots w1) =
            Some (apply_set (update_data_of RUNNING (Some (fake_pid_of w)) (clock w))
                    (apply_set (update_data_of STARTING None (clock w)) bot))).
  { by rewrite Hbots1, !find_one_update_one_eq, Hfind. }
  destruct (stop_bot_returns _ _ _ Hnf1 Hfind1 eq_refl) as (w2 & Hstop & _).
  destruct (stop_bot_ok_inv _ _ _ _ Hstop)
    as (b1 & Hb1 & _ & _ & Hbots2 & Hlogs2 & _).
  exists w1, w2. split; [done|]. split; [done|]. split; [|split].
  - rewrite Hbots2, !find_one_update_one_eq, Hfind1, Hclock1. reflexivity.
  - intros j Hj.
    by rewrite Hbots2, Hbots1, !find_one_update_one_ne.
  - rewrite Hlogs2, Hlogs1, !length_app. simpl. lia.
Qed.

(** Witness of [start_then_stop], on the freshly created demo bot. *)
Lemma start_then_stop_witness :
  ∃ w1 w2,
    start_bot "b1" demo_world =
      (Ok (Reply_message_pid "Bot started successfully" (fake_pid_of demo_world)), w1) ∧
    stop_bot "b1" w1 = (Ok (Reply_message "Bot stopped successfully"), w2) ∧
    find_one "b1" (db_bots w2) =
      Some (mkBot (id demo_bot) (name demo_bot) (description demo_bot)
                  (bot_type demo_bot) STOPPED
                  (port demo_bot) (command demo_bot) (working_directory demo_bot)
                  (environment_vars demo_bot) None (created_at demo_bot)
                  (Some (clock demo_world)) (Some (clock demo_world))
                  (cpu_usage demo_bot) (memory_usage demo_bot) (uptime demo_bot)) ∧
    (∀ j, j ≠ "b1" → find_one j (db_bots w2) = find_one j (db_bots demo_world)) ∧
    length (db_logs w2) = (length (db_logs demo_world) + 4)%nat.
Proof.
  apply (start_then_stop "b1" demo_world demo_bot).
  - constructor.
  - reflexivity.
  - discriminate.
Defined.

(** X20: restarting a running bot, with a store that does not fail,
    stops it and starts it one second later: the call returns a newly
    drawn pid between 1000 and 9999, and the record is Running with that
    pid, stopped at the time of the call and started one second after
    it. *)
Theorem restart_running (bid : string) (w : World) (bot : Bot) :
  no_faults w →
  find_one bid (db_bots w) = Some bot → status bot = RUNNING →
  ∃ w',
    restart_bot bid w =
      (Ok (Reply_message_pid "Bot started successfully" (fake_pid_of w)), w') ∧
    (1000 ≤ fake_pid_of w ≤ 9999)%Z ∧
    find_one bid (db_bots w') =
      Some (mkBot (id bot) (name bot) (description bot) (bot_type bot) RUNNING
                  (port bot) (command bot) (working_directory bot)
                  (environment_vars bot) (Some (fake_pid_of w)) (created_at bot)
                  (Some (1 + clock w)) (Some (clock w))
                  (cpu_usage bot) (memory_usage bot) (uptime bot)) ∧
    length (db_logs w') = (length (db_logs w) + 4)%nat.
Proof.
  intros Hnf Hfind Hrun.
  destruct (stop_bot_returns _ _ _ Hnf Hfind Hrun) as (w1 & Hstop & Hnf1).
  destruct (stop_bot_ok_inv _ _ _ _ Hstop)
    as (b & Hb & _ & _ & Hbots1 & Hlogs1 & Hclock1 & _ & Hrand1 & _).
  assert (b = bot) as -> by congruence.
  set (w2 := set_clock (Z.add 1) w1).
  assert (Hfind2 : find_one bid (db_bots w2) =
            Some (apply_set (update_data_of STOPPED None (clock w))
                    (apply_set (update_data_of STOPPING None (clock w)) bot))).
  { unfold w2. simpl. by rewrite Hbots1, !find_one_update_one_eq, Hfind. }
  assert (Hnf2 : no_faults w2) by exact Hnf1.
  destruct (start_bot_returns _ _ _ Hnf2 Hfind2 ltac:(discriminate))
    as (w3 & Hstart & _).
  destruct (start_bot_ok_inv _ _ _ _ Hstart)
    as (b2 & Hb2 & _ & _ & Hbots3 & Hlogs3 & _).
  assert (Hpid : fake_pid_of w2 = fake_pid_of w).
  { unfold fake_pid_of, w2. simpl. by rewrite Hrand1. }
  rewrite Hpid in *.
  exists w3. split; [|split; [apply fake_pid_of_range|split]].
  - unfold restart_bot, try_except_http, bind, sleep. rewrite Hstop.
    fold w2. by rewrite Hstart.
  - rewrite Hbots3, !find_one_update_one_eq, Hfind2.
    unfold w2. simpl. rewrite Hclock1. reflexivity.
  - rewrite Hlogs3. unfold w2. simpl. rewrite Hlogs1, !length_app. simpl. lia.
Qed.

(** Witness of [restart_running], on the started demo bot. *)
Lemma restart_running_witness :
  ∃ w',
    restart_bot "b1" demo_started =
      (Ok (Reply_message_pid "Bot started successfully" (fake_pid_of demo_started)), w') ∧
    (1000 ≤ fake_pid_of demo_started ≤ 9999)%Z ∧
    find_one "b1" (db_bots w') =
      Some (mkBot (id demo_running_bot) (name demo_running_bot)
                  (description demo_running_bot) (bot_type demo_running_bot) RUNNING
                  (port demo_running_bot) (command demo_running_bot)
                  (working_directory demo_running_bot)
                  (environment_vars demo_running_bot)
                  (Some (fake_pid_of demo_started)) (created_at demo_running_bot)
                  (Some (1 + clock demo_started)) (Some (clock demo_started))
                  (cpu_usage demo_running_bot) (memory_usage demo_running_bot)
                  (uptime demo_running_bot)) ∧
    length (db_logs w') = (length (db_logs demo_started) + 4)%nat.
Proof.
  apply (restart_running "b1" demo_started demo_running_bot).
  - constructor.
  - vm_compute. reflexivity.
  - reflexivity.
Defined.

(** ** What a deletion leaves in place *)

Lemma find_one_delete_one_ne i j docs :
  i ≠ j → find_one i (delete_one j docs) = find_one i docs.
Proof.
  intros Hij. induction docs as [|b rest IH]; simpl; [done|].
  destruct (decide (id b = j)) as [Hj|Hj]; simpl.
  - by rewrite decide_False by congruence.
  - destruct (decide (id b = i)); [done|exact IH].
Qed.

Lemma filter_others_delete_many i (docs : list LogEntry) :
  filter (fun e => bot_id e ≠ i) (delete_many i docs) =
  filter (fun e => bot_id e ≠ i) docs.
Proof. unfold delete_many. induction docs as [|e docs IH]; [done|].
  rewrite (filter_cons (fun e => bot_id e ≠ i) e docs).
  destruct (decide (bot_id e ≠ i)); [|exact IH].
  rewrite (filter_cons (fun e => bot_id e ≠ i) e (filter _ docs)).
  rewrite decide_True by done. by rewrite IH.
Qed.

(** What a [delete_bot] that returns has done to the log store. *)
Lemma delete_bot_ok_logs bid w r w' :
  delete_bot bid w = (Ok r, w') →
  ∃ own e,
    Forall (fun x => bot_id x = bid) own ∧ bot_id e = bid ∧
    db_logs w' = delete_many bid (db_logs w ++ own) ++ [e].
Proof.
  unfold delete_bot. unfold bind at 1. unfold get_bot_by_id.
  destruct (find_one bid (db_bots w)) as [bot|] eqn:Hfind; [|done].
  unfold bind at 1.
  destruct (bool_decide (status bot = RUNNING)) eqn:Hst.
  - unfold bind at 1. destruct (stop_bot bid w) as [[r1|e1] w1] eqn:Hstop; [|done].
    destruct (stop_bot_ok_inv _ _ _ _ Hstop)
      as (b & Hb & _ & _ & Hbots & Hlogs & _).
    run_all; try discriminate.
    intros [= <- <-]. eexists _, _. proj. rewrite Hlogs.
    split; [|split; [|reflexivity]]; [|done]. by repeat constructor.
  - run_all; try discriminate.
    intros [= <- <-]. exists []. eexists. proj. rewrite app_nil_r.
    split; [constructor|]. split; [|reflexivity]. done.
Qed.

(** X21: a [delete_bot] that returns has left every other bot alone: a
    lookup by another identifier finds what it found before, and the log
    entries of the other bots are the same, in the same order; and with an
    unknown identifier [delete_bot] raises the 404 error and changes
    nothing. *)
Theorem delete_bot_spares_others (bid : string) (w : World) :
  (find_one bid (db_bots w) = None →
   delete_bot bid w = (Raise (HTTPException 404 "Bot not found"), w)) ∧
  (∀ r w', delete_bot bid w = (Ok r, w') →
     (∀ j, j ≠ bid → find_one j (db_bots w') = find_one j (db_bots w)) ∧
     filter (fun e => bot_id e ≠ bid) (db_logs w') =
       filter (fun e => bot_id e ≠ bid) (db_logs w)).
Proof.
  split.
  - intros Hfind. unfold delete_bot, bind, get_bot_by_id. by rewrite Hfind.
  - intros r w' Hdel.
    destruct (delete_bot_ok_inv _ _ _ _ Hdel) as (_ & _ & _ & _ & Hbots & _).
    destruct (delete_bot_ok_logs _ _ _ _ Hdel) as (own & e & Hown & He & Hlogs).
    split.
    + intros j Hj. rewrite Hbots. by apply find_one_delete_one_ne.
    + rewrite Hlogs, filter_app, filter_others_delete_many, filter_app.
      rewrite (filter_cons_False _ e) by (intros Hne; by apply Hne).
      rewrite app_nil_r.
      assert (Hnone : filter (fun x => bot_id x ≠ bid) own = []).
      { clear -Hown. induction Hown as [|x own Hx _ IH]; [done|].
        rewrite filter_cons_False by (intros Hne; by apply Hne). exact IH. }
      by rewrite Hnone, app_nil_r.
Qed.

(** Witness of [delete_bot_spares_others]: no bot "b2" on [demo_world]. *)
Lemma delete_bot_spares_others_witness :
  delete_bot "b2" demo_world = (Raise (HTTPException 404 "Bot not found"), demo_world).
Proof.
  destruct (delete_bot_spares_others "b2" demo_world) as [H _].
  apply H. reflexivity.
Defined.

(** ** The text test of [restart_bot] *)

Lemma str_in_skip c hay :
  c ≠ "n"%char → str_in "not running" (String c hay) = str_in "not running" hay.
Proof.
  intros Hc.
  change (str_in "not running" (String c hay))
    with (String.prefix "not running" (String c hay) || str_in "not running" hay).
  change (String.prefix "not running" (String c hay))
    with (if ascii_dec "n" c then String.prefix "ot running" hay else false).
  destruct (ascii_dec "n" c) as [Heq|_]; [|done].
  by destruct Hc.
Qed.

Lemma str_in_failed_stop text :
  str_in "not running" ("Failed to stop bot: " +:+ text) = str_in "not running" text.
Proof.
  cbv [String.append].
  repeat (rewrite str_in_skip by discriminate). done.
Qed.

(** X22: when [stop_bot] fails on a running bot because the store refuses
    its first write, and the failure is recorded (the two writes of the
    handler go through), [stop_bot] raises the 500 error with the text of
    the store's error; [restart_bot] then starts the bot, now in Error,
    exactly when that text contains the words "not running", and raises
    the 500 again otherwise. *)
Theorem restart_after_failed_stop (bid : string) (w : World) (bot : Bot)
    (text : string) :
  find_one bid (db_bots w) = Some bot → status bot = RUNNING →
  next_fault (faults w) = Some text →
  next_fault (drop 1 (faults w)) = None →
  next_fault (drop 1 (drop 1 (faults w))) = None →
  ∃ w1,
    stop_bot bid w =
      (Raise (HTTPException 500 ("Failed to stop bot: " +:+ text)), w1) ∧
    status <$> find_one bid (db_bots w1) = Some ERROR ∧
    restart_bot bid w =
      if str_in "not running" text then start_bot bid w1
      else (Raise (HTTPException 500 ("Failed to stop bot: " +:+ text)), w1).
Proof.
  intros Hfind Hrun Hf1 Hf2 Hf3.
  assert (Hstop : ∃ w1,
            stop_bot bid w =
              (Raise (HTTPException 500 ("Failed to stop bot: " +:+ text)), w1) ∧
            status <$> find_one bid (db_bots w1) = Some ERROR).
  { unfold stop_bot. unfold bind at 1. unfold get_bot_by_id. rewrite Hfind.
    rewrite bool_decide_true by done. simpl.
    run. rewrite Hf1. run. rewrite Hf2. run. rewrite Hf3. run.
    eexists. split; [reflexivity|]. proj.
    by rewrite find_one_update_one_eq, Hfind. }
  destruct Hstop as (w1 & Hstop & Herr). exists w1.
  split; [done|]. split; [done|].
  unfold restart_bot, try_except_http, bind. rewrite Hstop.
  rewrite str_in_failed_stop. by destruct (str_in "not running" text).
Qed.

(** Witness of [restart_after_failed_stop]: the outage of [demo_outage],
    whose text has the words. *)
Lemma restart_after_failed_stop_witness :
  ∃ w1,
    stop_bot "b1" demo_outage =
      (Raise (HTTPException 500
                ("Failed to stop bot: " +:+ "replica set member is not running")), w1) ∧
    status <$> find_one "b1" (db_bots w1) = Some ERROR ∧
    restart_bot "b1" demo_outage =
      if str_in "not running" "replica set member is not running"
      then start_bot "b1" w1
      else (Raise (HTTPException 500
                     ("Failed to stop bot: " +:+ "replica set member is not running")),
            w1).
Proof.
  apply (restart_after_failed_stop "b1" demo_outage demo_running_bot
           "replica set member is not running").
  - vm_compute. reflexivity.
  - reflexivity.
  - vm_compute. reflexivity.
  - vm_compute. reflexivity.
  - vm_compute. reflexivity.
Defined.

(** ** One record at a time *)

Lemma update_one_absent i f docs :
  find_one i docs = None → update_one i f docs = docs.
Proof.
  induction docs as [|b rest IH]; simpl; [done|].
  destruct (decide (id b = i)); [done|]. intros H. by rewrite IH.
Qed.

(** X23: [update_bot_status] changes one record at most, the first one
    with the identifier: a lookup by any other identifier finds what it
    found before; and when no record has the identifier the call changes
    no record at all and still returns normally (if the store takes the
    write). *)
Theorem update_bot_status_one_record (bid : string) (st : BotStatus)
    (p : option Z) (w : World) :
  (∀ j, j ≠ bid →
     find_one j (db_bots (snd (update_bot_status bid st p w))) =
     find_one j (db_bots w)) ∧
  (find_one bid (db_bots w) = None →
     db_bots (snd (update_bot_status bid st p w)) = db_bots w ∧
     (next_fault (faults w) = None →
      fst (update_bot_status bid st p w) = Ok tt)).
Proof.
  rewrite update_bot_status_eq. split.
  - intros j Hj. destruct (next_fault (faults w)); simpl; [done|].
    by apply find_one_update_one_ne.
  - intros Hnone. split.
    + destruct (next_fault (faults w)); simpl; [done|].
      by apply update_one_absent.
    + by intros ->.
Qed.

(** Witness of [update_bot_status_one_record]: no bot "b2" on
    [demo_world]. *)
Lemma update_bot_status_one_record_witness :
  db_bots (snd (update_bot_status "b2" RUNNING (Some 7) demo_world)) =
    db_bots demo_world ∧
  fst (update_bot_status "b2" RUNNING (Some 7) demo_world) = Ok tt.
Proof.
  destruct (update_bot_status_one_record "b2" RUNNING (Some 7) demo_world)
    as [_ H].
  destruct H as [Hsame Hok]; [reflexivity|].
  split; [exact Hsame|]. apply Hok. reflexivity.
Defined.

(** ** The periodic message *)




(** ** Who is sent what *)

Lemma walk_visited_open l i b :
  (i, b) ∈ (walk l).2 → ∃ c, c ∈ l ∧ ws_id c = i ∧ ws_open c = b.
Proof.
  induction l as [|x rest Hopen IH|x Hopen|x y rest Hopen IH] using walk_ind; simpl.
  - by intros ?%elem_of_nil.
  - rewrite Hopen. destruct (walk rest) as [kept visited]. simpl in *.
    intros [[= -> ->]|Hin]%elem_of_cons.
    + exists x. split; [left|done].
    + destruct (IH Hin) as (c & Hc & Hid & Hb). exists c. split; [by right|done].
  - rewrite Hopen. simpl. intros [[= -> ->]|?%elem_of_nil]%elem_of_cons; [|done].
    exists x. split; [left|done].
  - rewrite Hopen. destruct (walk rest) as [kept visited]. simpl in *.
    intros [[= -> ->]|Hin]%elem_of_cons.
    + exists x. split; [left|done].
    + destruct (IH Hin) as (c & Hc & Hid & Hb). exists c.
      split; [by right; right|done].
Qed.

Lemma walk_visited_NoDup l :
  NoDup (ws_id <$> l) → NoDup ((walk l).2.*1).
Proof.
  induction l as [|x rest Hopen IH|x Hopen|x y rest Hopen IH] using walk_ind; simpl.
  - intros _. constructor.
  - rewrite Hopen. intros [Hx Hnd]%NoDup_cons.
    pose proof (walk_visited_subset rest) as Hsub.
    destruct (walk rest) as [kept visited]. simpl in *.
    apply NoDup_cons. split; [|by apply IH].
    intros ([i b] & Hi & Hin)%list_elem_of_fmap. simpl in Hi. subst i.
    apply Hx. by eapply Hsub.
  - rewrite Hopen. simpl. intros _. apply NoDup_singleton.
  - rewrite Hopen. intros [Hx [Hy Hnd]%NoDup_cons]%NoDup_cons.
    pose proof (walk_visited_subset rest) as Hsub.
    destruct (walk rest) as [kept visited]. simpl in *.
    apply NoDup_cons. split; [|by apply IH].
    intros ([i b] & Hi & Hin)%list_elem_of_fmap. simpl in Hi. subst i.
    apply Hx. right. by eapply Hsub.
Qed.

(** X25: in a broadcast over distinct connections no connection is sent
    the message twice, and every send goes to a connection of the list
    and is recorded as delivered exactly when that connection is open. *)
Theorem broadcast_sends_once (message : Message) (w : World) :
  NoDup (ws_id <$> active_connections w) →
  ∃ trace,
    send_log (snd (broadcast message w)) = send_log w ++ trace ∧
    NoDup (sent_to <$> trace) ∧
    Forall (fun ev => ∃ c, c ∈ active_connections w ∧ ws_id c = sent_to ev ∧
                           ws_open c = sent_ok ev ∧ sent_text ev = message) trace.
Proof.
  intros Hnd. fold (after_broadcast message w).
  destruct (after_broadcast_walk message w Hnd) as [_ ->].
  eexists. split; [reflexivity|]. split.
  - unfold events. rewrite <- list_fmap_compose.
    by apply walk_visited_NoDup in Hnd.
  - apply Forall_forall. intros ev Hev. unfold events in Hev.
    apply list_elem_of_fmap in Hev as ([i b] & -> & Hin). simpl.
    destruct (walk_visited_open _ _ _ Hin) as (c & Hc & Hid & Hopen). eauto.
Qed.

(** Witness of [broadcast_sends_once], on the three listeners. *)
Lemma broadcast_sends_once_witness :
  ∃ trace,
    send_log (snd (broadcast demo_message demo_listeners)) =
      send_log demo_listeners ++ trace ∧
    NoDup (sent_to <$> trace) ∧
    Forall (fun ev => ∃ c, c ∈ active_connections demo_listeners ∧
                           ws_id c = sent_to ev ∧
                           ws_open c = sent_ok ev ∧ sent_text ev = demo_message) trace.
Proof.
  apply (broadcast_sends_once demo_message demo_listeners).
  apply (bool_decide_unpack _). vm_compute. exact I.
Defined.

(** ** Entries sent in by the bots *)

(** X26: [add_bot_log] files the entry under the bot identifier of the
    body: the identifier of the path plays no part, and no record of the
    store is looked up, so the entry is stored (and returned) even for a
    bot that does not exist, whenever the store takes the write. *)
Theorem add_bot_log_ignores_path (i1 i2 : string) (log_data : LogEntryCreate)
    (w : World) :
  add_bot_log i1 log_data w = add_bot_log i2 log_data w ∧
  (next_fault (faults w) = None →
   let e := mkLogEntry (uuid_of (uuid_ctr w)) (lc_bot_id log_data) (clock w)
                       (lc_level log_data) (lc_message log_data)
                       (lc_source log_data) in
   fst (add_bot_log i1 log_data w) = Ok e ∧
   db_logs (snd (add_bot_log i1 log_data w)) = db_logs w ++ [e] ∧
   db_bots (snd (add_bot_log i1 log_data w)) = db_bots w).
Proof.
  split; [done|]. intros Hnext e.
  unfold add_bot_log, bind, uuid4, utcnow. rewrite store_write_eq. simpl.
  rewrite Hnext, broadcast_ok. simpl. by autorewrite with world.
Qed.

(** Witness of [add_bot_log_ignores_path]: an entry for a bot that the
    store of [demo_world] does not hold. *)
Lemma add_bot_log_ignores_path_witness :
  find_one "no-such-bot" (db_bots demo_world) = None ∧
  (let e := mkLogEntry (uuid_of (uuid_ctr demo_world)) (lc_bot_id demo_log_data)
                       (clock demo_world) (lc_level demo_log_data)
                       (lc_message demo_log_data) (lc_source demo_log_data) in
   fst (add_bot_log "b1" demo_log_data demo_world) = Ok e ∧
   db_logs (snd (add_bot_log "b1" demo_log_data demo_world)) =
     db_logs demo_world ++ [e] ∧
   db_bots (snd (add_bot_log "b1" demo_log_data demo_world)) = db_bots demo_world).
Proof.
  split; [reflexivity|].
  destruct (add_bot_log_ignores_path "b1" "b1" demo_log_data demo_world) as [_ H].
  apply H. reflexivity.
Defined.

(** ** A deletion that cannot stop the bot *)

(** X27: [delete_bot] on a running bot gives up when its [stop_bot]
    fails: it raises the failure of [stop_bot] in the world [stop_bot]
    left, and the record is still in the store. *)
Theorem delete_bot_blocked_by_stop (bid : string) (w : World) (bot : Bot)
    (e : Exc) (w1 : World) :
  find_one bid (db_bots w) = Some bot → status bot = RUNNING →
  stop_bot bid w = (Raise e, w1) →
  delete_bot bid w = (Raise e, w1) ∧ is_Some (find_one bid (db_bots w1)).
Proof.
  intros Hfind Hrun Hstop. split.
  - unfold delete_bot. unfold bind at 1. unfold get_bot_by_id. rewrite Hfind.
    rewrite bool_decide_true by done. unfold bind. by rewrite Hstop.
  - assert (Hids : same_ids w w1).
    { pose proof (respects_stop_bot same_ids) as H.
      specialize (H ltac:(done)
                    ltac:(unfold same_ids; congruence)
                    ltac:(done) ltac:(done)
                    ltac:(intros; unfold same_ids; by autorewrite with world)
                    ltac:(intros; unfold same_ids; simpl; by apply ids_update_one)
                    ltac:(done) bid w).
      by rewrite Hstop in H. }
    unfold same_ids in Hids.
    apply find_one_elem_of in Hfind as [Hin Hid].
    assert (Hin1 : bid ∈ id <$> db_bots w1).
    { rewrite Hids, <- Hid. by apply list_elem_of_fmap_2. }
    clear -Hin1. induction (db_bots w1) as [|b rest IH]; simpl.
    + by apply elem_of_nil in Hin1.
    + destruct (decide (id b = bid)); [eauto|].
      rewrite fmap_cons in Hin1. apply elem_of_cons in Hin1 as [Heq|Hin1];
        [congruence|by apply IH].
Qed.

(** Witness of [delete_bot_blocked_by_stop]: the outage of
    [demo_outage]. *)
Lemma delete_bot_blocked_by_stop_witness :
  delete_bot "b1" demo_outage =
    (Raise (HTTPException 500
              "Failed to stop bot: replica set member is not running"),
     snd (stop_bot "b1" demo_outage)) ∧
  is_Some (find_one "b1" (db_bots (snd (stop_bot "b1" demo_outage)))).
Proof.
  apply (delete_bot_blocked_by_stop "b1" demo_outage demo_running_bot).
  - vm_compute. reflexivity.
  - reflexivity.
  - vm_compute. reflexivity.
Defined.
